(** * The voice page's transcript reconciler and session controller

    A shallow embedding of [src/app/static/public/js/voice.js]: the transcript
    functions ([clearTranscript], [handleTranscription],
    [appendTranscriptBubble], [handleDataMessage], [sendTextMessage]) and the
    session functions ([startSession], [stopSession], [resetUI]).

    Modelling choices.
    - A JavaScript string is the list of its UTF-16 code units.
    - The entry objects [{ element, text }] live in a heap addressed by
      location; [segmentElements] and [lastUserSpeechEntry] hold locations,
      so that two keys of the map can alias one entry, as in the source.
    - Handlers are computations in a state-and-exception monad: a thrown
      exception keeps the state reached so far.
    - [JSON.parse] is a parameter.  Its result is kept as far as the handler
      reads it: the four properties [type], [item_id], [transcript] and
      [delta], each absent or a string.
    - An [async] function is cut at its [await]s: the suspended invocation is
      a continuation kept in the state, resumed by a settlement event. *)

From Stdlib Require Import ZArith NArith Ascii String DecimalString DecimalZ Lia.
From stdpp Require Import base option list sorting gmap.

Local Open Scope Z_scope.
Local Open Scope nat_scope.

(** ** JavaScript strings *)

Abbreviation jsstr := (list N).

(** A string literal of the source (ASCII only). *)
Definition lit (s : string) : jsstr := N_of_ascii <$> list_ascii_of_string s.

(** [ToString] of an integral number, as in ['user-' + Date.now()]. *)
Definition number_to_string (n : Z) : jsstr :=
  lit (NilEmpty.string_of_int (Z.to_int n)).

(** [!!s] for a string: only the empty string is falsy. *)
Definition truthy (s : jsstr) : bool :=
  match s with [] => false | _ :: _ => true end.

(** [v || d] where [v] is a property that is absent or a string. *)
Definition or_else (v : option jsstr) (d : jsstr) : jsstr :=
  match v with
  | Some s => if truthy s then s else d
  | None => d
  end.

(** WhiteSpace and LineTerminator code points of ECMAScript. *)
Definition is_white_space (c : N) : bool :=
  bool_decide (c ∈ [9; 10; 11; 12; 13; 32; 160; 5760; 8232; 8233; 8239; 8287;
                    12288; 65279]%N)
  || (8192 <=? c)%N && (c <=? 8202)%N.

Fixpoint trimStart (s : jsstr) : jsstr :=
  match s with
  | c :: r => if is_white_space c then trimStart r else s
  | [] => []
  end.

(** [String.prototype.trim]. *)
Definition trim (s : jsstr) : jsstr :=
  reverse (trimStart (reverse (trimStart s))).

(** The scalar values of a string: surrogate pairs are joined, a lone
    surrogate becomes U+FFFD. *)
Fixpoint scalar_values (s : jsstr) : list N :=
  match s with
  | [] => []
  | u :: r =>
    if (55296 <=? u)%N && (u <=? 56319)%N then
      match r with
      | v :: r' =>
        if (56320 <=? v)%N && (v <=? 57343)%N
        then (65536 + (u - 55296) * 1024 + (v - 56320))%N :: scalar_values r'
        else 65533%N :: scalar_values r
      | [] => [65533%N]
      end
    else if (56320 <=? u)%N && (u <=? 57343)%N then 65533%N :: scalar_values r
    else u :: scalar_values r
  end.

Definition utf8_bytes (c : N) : list N :=
  if (c <? 128)%N then [c]
  else if (c <? 2048)%N then [192 + c / 64; 128 + c mod 64]%N
  else if (c <? 65536)%N then
    [224 + c / 4096; 128 + (c / 64) mod 64; 128 + c mod 64]%N
  else [240 + c / 262144; 128 + (c / 4096) mod 64; 128 + (c / 64) mod 64;
        128 + c mod 64]%N.

(** [new TextEncoder().encode(s)]: the UTF-8 bytes of [s]. *)
Definition TextEncoder_encode (s : jsstr) : list N :=
  scalar_values s ≫= utf8_bytes.

(** ** The page state *)

Abbreviation loc := nat.

Inductive role := user | assistant.

(** One transcript message: the [div.transcript-msg] node with its label and
    bubble, and the [text] property of the entry object that owns it. *)
Record entry := Entry {
  msg_segmentId : jsstr;     (* msg.dataset.segmentId *)
  msg_role : role;           (* msg.className *)
  label_text : jsstr;        (* label.textContent *)
  bubble_text : jsstr;       (* bubble.textContent *)
  bubble_interim : bool;     (* bubble.classList has 'interim' *)
  entry_text : jsstr         (* entry.text *)
}.

(** The [#transcript] element: its message children, in document order, and
    whether the [.transcript-empty] placeholder is in it. *)
Record container := Container {
  children : list loc;
  transcript_empty : bool
}.

(** The class of [#statusText]; [disconnected] is the empty class. *)
Inductive status := disconnected | connecting | connected | error.

(** [room.state] *)
Inductive ConnectionState :=
  | Disconnected | Connecting | Connected | Reconnecting.

(** The [Room] object behind [room]: what the page reads of it. *)
Record RoomObject := {
  room_state : ConnectionState;
  localParticipant_identity : jsstr
}.

(** A suspended [async] invocation, named by the [await] it waits at; [n] is
    the number of local tracks the invocation holds, [remaining] the tracks
    still to publish. *)
Inductive continuation :=
  | await_ensurePublicKey
  | await_createLocalTracks
  | await_fetch (n : nat)
  | await_json (n : nat)
  | await_connect (n : nat)
  | await_publishTrack (remaining : nat)
  | await_disconnect.

Record state := State {
  LiveKitClient : bool;                      (* window.LiveKitClient is there *)
  mediaDevices : bool;                       (* getUserMedia is there *)
  Room : bool;                               (* [Room] has been bound *)
  statusText : option status;
  transcriptContainer : option container;
  heap : list entry;
  segmentElements : gmap jsstr loc;
  localParticipantIdentity : option jsstr;
  lastUserSpeechEntry : option loc;
  room : option RoomObject;
  published : list (list N * jsstr);         (* publishData calls, oldest first *)
  suspended : list continuation
}.

Definition set_Room (v : bool) (s : state) : state :=
  State (LiveKitClient s) (mediaDevices s) v (statusText s)
    (transcriptContainer s) (heap s) (segmentElements s)
    (localParticipantIdentity s) (lastUserSpeechEntry s) (room s)
    (published s) (suspended s).

Definition set_statusText (v : option status) (s : state) : state :=
  State (LiveKitClient s) (mediaDevices s) (Room s) v
    (transcriptContainer s) (heap s) (segmentElements s)
    (localParticipantIdentity s) (lastUserSpeechEntry s) (room s)
    (published s) (suspended s).

Definition set_transcriptContainer (v : option container) (s : state) : state :=
  State (LiveKitClient s) (mediaDevices s) (Room s) (statusText s)
    v (heap s) (segmentElements s)
    (localParticipantIdentity s) (lastUserSpeechEntry s) (room s)
    (published s) (suspended s).

Definition set_heap (v : list entry) (s : state) : state :=
  State (LiveKitClient s) (mediaDevices s) (Room s) (statusText s)
    (transcriptContainer s) v (segmentElements s)
    (localParticipantIdentity s) (lastUserSpeechEntry s) (room s)
    (published s) (suspended s).

Definition set_segmentElements (v : gmap jsstr loc) (s : state) : state :=
  State (LiveKitClient s) (mediaDevices s) (Room s) (statusText s)
    (transcriptContainer s) (heap s) v
    (localParticipantIdentity s) (lastUserSpeechEntry s) (room s)
    (published s) (suspended s).

Definition set_localParticipantIdentity (v : option jsstr) (s : state) : state :=
  State (LiveKitClient s) (mediaDevices s) (Room s) (statusText s)
    (transcriptContainer s) (heap s) (segmentElements s)
    v (lastUserSpeechEntry s) (room s)
    (published s) (suspended s).

Definition set_lastUserSpeechEntry (v : option loc) (s : state) : state :=
  State (LiveKitClient s) (mediaDevices s) (Room s) (statusText s)
    (transcriptContainer s) (heap s) (segmentElements s)
    (localParticipantIdentity s) v (room s)
    (published s) (suspended s).

Definition set_room (v : option RoomObject) (s : state) : state :=
  State (LiveKitClient s) (mediaDevices s) (Room s) (statusText s)
    (transcriptContainer s) (heap s) (segmentElements s)
    (localParticipantIdentity s) (lastUserSpeechEntry s) v
    (published s) (suspended s).

Definition set_published (v : list (list N * jsstr)) (s : state) : state :=
  State (LiveKitClient s) (mediaDevices s) (Room s) (statusText s)
    (transcriptContainer s) (heap s) (segmentElements s)
    (localParticipantIdentity s) (lastUserSpeechEntry s) (room s)
    v (suspended s).

Definition set_suspended (v : list continuation) (s : state) : state :=
  State (LiveKitClient s) (mediaDevices s) (Room s) (statusText s)
    (transcriptContainer s) (heap s) (segmentElements s)
    (localParticipantIdentity s) (lastUserSpeechEntry s) (room s)
    (published s) v.

(** The messages shown, in document order. *)
Definition entries (s : state) : list loc :=
  match transcriptContainer s with
  | Some c => children c
  | None => []
  end.

(** ** The monad of handlers *)

Inductive exn := TypeError | SyntaxError | Error.

Inductive result (A : Type) :=
  | Normal (a : A)
  | Throw (e : exn).
Arguments Normal {A} a.
Arguments Throw {A} e.

Definition js (A : Type) : Type := state → result A * state.

#[global] Instance js_ret : MRet js := λ A a s, (Normal a, s).
#[global] Instance js_bind : MBind js := λ A B f m s,
  match m s with
  | (Normal a, s') => f a s'
  | (Throw e, s') => (Throw e, s')
  end.

Definition reads {A} (f : state → A) : js A := λ s, (Normal (f s), s).
Definition modify (f : state → state) : js unit := λ s, (Normal tt, f s).
Definition throw {A} (e : exn) : js A := λ s, (Throw e, s).

(** [try { body } catch (e) { handler e }] *)
Definition try_catch (body : js unit) (handler : exn → js unit) : js unit :=
  λ s, match body s with
       | (Normal a, s') => (Normal a, s')
       | (Throw e, s') => handler e s'
       end.

(** [for (const x of l) body x] *)
Fixpoint for_of {A} (l : list A) (body : A → js unit) : js unit :=
  match l with
  | [] => mret tt
  | x :: r => body x;; for_of r body
  end.

(** The state a handler leaves behind, and whether it returned. *)
Definition exec {A} (m : js A) (s : state) : state := (m s).2.
Definition returns {A} (m : js A) (s : state) : Prop :=
  ∃ a, (m s).1 = Normal a.

(** ** Transcript *)

(** Allocation of a message node together with its entry object. *)
Definition createElement (e : entry) : js loc :=
  λ s, (Normal (length (heap s)), set_heap (heap s ++ [e]) s).

(** [transcriptContainer.appendChild(msg)]; a [TypeError] when the container
    is [null]. *)
Definition appendChild (l : loc) : js unit :=
  λ s, match transcriptContainer s with
       | Some c =>
         (Normal tt,
          set_transcriptContainer
            (Some (Container (children c ++ [l]) (transcript_empty c))) s)
       | None => (Throw TypeError, s)
       end.

(** An update of the entry at [l]: of [existing.text], or of the bubble that
    [existing.element.querySelector('.transcript-bubble')] finds. *)
Definition update (l : loc) (f : entry → entry) : js unit :=
  modify (λ s, set_heap (alter f l (heap s)) s).

Definition set_bubble_text (v : jsstr) (e : entry) : entry :=
  Entry (msg_segmentId e) (msg_role e) (label_text e) v (bubble_interim e)
    (entry_text e).
Definition set_bubble_interim (v : bool) (e : entry) : entry :=
  Entry (msg_segmentId e) (msg_role e) (label_text e) (bubble_text e) v
    (entry_text e).
Definition set_entry_text (v : jsstr) (e : entry) : entry :=
  Entry (msg_segmentId e) (msg_role e) (label_text e) (bubble_text e)
    (bubble_interim e) v.

Definition clearTranscript : js unit :=
  tc ← reads transcriptContainer;
  match tc with
  | None => mret tt
  | Some _ =>
    modify (set_transcriptContainer (Some (Container [] true)));;
    modify (set_segmentElements ∅);;
    modify (set_lastUserSpeechEntry None)
  end.

Definition hideTranscriptEmpty : js unit :=
  tc ← reads transcriptContainer;
  match tc with
  | None => mret tt
  | Some c => modify (set_transcriptContainer (Some (Container (children c) false)))
  end.

(** The scroll position is not part of the state. *)
Definition scrollTranscript : js unit := mret tt.

Record segment := Segment {
  seg_id : jsstr;
  seg_text : jsstr;
  seg_final : bool
}.

Record Participant := { identity : jsstr }.

Definition label_you : jsstr := [20320%N].
Definition label_Grok : jsstr := lit "Grok".

(** [participant && localParticipantIdentity &&
     participant.identity === localParticipantIdentity] *)
Definition is_local (participant : option Participant) (lpi : option jsstr) : bool :=
  match participant, lpi with
  | Some p, Some i => truthy i && bool_decide (identity p = i)
  | _, _ => false
  end.

(** The body of the loop of [handleTranscription], for one segment. *)
Definition handleSegment (isLocal : bool) (seg : segment) : js unit :=
  let role := if isLocal then user else assistant in
  let roleLabel := if isLocal then label_you else label_Grok in
  let id := seg_id seg in
  let text := or_else (Some (seg_text seg)) [] in
  let isFinal := seg_final seg in
  existing ← reads (λ s, segmentElements s !! id);
  match existing with
  | Some l =>
    update l (set_bubble_text text);;
    (if isFinal then update l (set_bubble_interim false) else mret tt);;
    update l (set_entry_text text)
  | None =>
    msg ← createElement (Entry id role roleLabel text (negb isFinal) text);
    appendChild msg;;
    modify (λ s, set_segmentElements (<[id := msg]> (segmentElements s)) s);;
    if isLocal then modify (set_lastUserSpeechEntry (Some msg)) else mret tt
  end.

Definition handleTranscription (segments : list segment)
    (participant : option Participant) : js unit :=
  tc ← reads transcriptContainer;
  if bool_decide (tc = None) || bool_decide (segments = []) then mret tt else
  hideTranscriptEmpty;;
  lpi ← reads localParticipantIdentity;
  let isLocal := is_local participant lpi in
  for_of segments (handleSegment isLocal);;
  scrollTranscript.

Definition appendTranscriptBubble (id : jsstr) (role : role) (roleLabel : jsstr)
    (text : jsstr) (interim : bool) : js unit :=
  hideTranscriptEmpty;;
  msg ← createElement (Entry id role roleLabel text interim text);
  appendChild msg;;
  modify (λ s, set_segmentElements (<[id := msg]> (segmentElements s)) s);;
  scrollTranscript.

(** The value [JSON.parse] returns, as far as [handleDataMessage] reads it.
    A primitive has none of the four properties and is kept by its
    truthiness; so is an array.  A property holding a falsy value reads like
    an absent one, and a [type] that is truthy but not a string like a
    string that is none of the three known ones. *)
Record object := Object {
  type : option jsstr;
  item_id : option jsstr;
  transcript : option jsstr;
  delta : option jsstr
}.

Inductive json :=
  | JPrimitive (truth : bool)
  | JObject (o : object).

Definition json_truthy (d : json) : bool :=
  match d with JPrimitive b => b | JObject _ => true end.

Definition property (f : object → option jsstr) (d : json) : option jsstr :=
  match d with JPrimitive _ => None | JObject o => f o end.

Definition completed : jsstr :=
  lit "conversation.item.input_audio_transcription.completed".
Definition audio_delta : jsstr := lit "response.audio_transcript.delta".
Definition audio_done : jsstr := lit "response.audio_transcript.done".

Section DataMessage.

(** [JSON.parse]: [None] when it throws a [SyntaxError]. *)
Variable JSON_parse : jsstr → option json.

Definition parse (text : jsstr) : js json :=
  match JSON_parse text with
  | Some d => mret d
  | None => throw SyntaxError
  end.

(** [now] is what [Date.now()] returns while the handler runs. *)
Definition handleDataMessage (now : Z) (text : jsstr) : js unit :=
  tc ← reads transcriptContainer;
  if bool_decide (tc = None) || negb (truthy text) then mret tt else
  try_catch (
    data ← parse text;
    if negb (json_truthy data) || negb (truthy (or_else (property type data) []))
    then mret tt else
    let type := or_else (property type data) [] in
    if bool_decide (type = completed) then
      let transcript := or_else (property transcript data) [] in
      if negb (truthy transcript) then mret tt else
      let id := or_else (property item_id data) (lit "user-" ++ number_to_string now) in
      existing ← reads (λ s, segmentElements s !! id);
      match existing with
      | Some l =>
        update l (set_bubble_text transcript);;
        update l (set_bubble_interim false);;
        update l (set_entry_text transcript)
      | None =>
        last ← reads lastUserSpeechEntry;
        match last with
        | Some l =>
          update l (set_bubble_text transcript);;
          update l (set_bubble_interim false);;
          update l (set_entry_text transcript);;
          modify (λ s, set_segmentElements (<[id := l]> (segmentElements s)) s);;
          modify (set_lastUserSpeechEntry None)
        | None => appendTranscriptBubble id user label_you transcript false
        end
      end
    else if bool_decide (type = audio_delta) then
      let delta := or_else (property delta data) [] in
      if negb (truthy delta) then mret tt else
      let id := or_else (property item_id data) (lit "grok-" ++ number_to_string now) in
      existing ← reads (λ s, segmentElements s !! id);
      match existing with
      | Some l =>
        update l (λ e, set_entry_text (entry_text e ++ delta) e);;
        update l (λ e, set_bubble_text (entry_text e) e)
      | None => appendTranscriptBubble id assistant label_Grok delta true
      end;;
      scrollTranscript
    else if bool_decide (type = audio_done) then
      let transcript := or_else (property transcript data) [] in
      let id := or_else (property item_id data) (lit "grok-" ++ number_to_string now) in
      existing ← reads (λ s, segmentElements s !! id);
      match existing with
      | Some l =>
        (if truthy transcript then
           update l (set_entry_text transcript);;
           update l (set_bubble_text transcript)
         else mret tt);;
        update l (set_bubble_interim false)
      | None =>
        if truthy transcript
        then appendTranscriptBubble id assistant label_Grok transcript false
        else mret tt
      end
    else mret tt)
  (λ _, mret tt).

End DataMessage.

(** ** Text message *)

Definition topic : jsstr := lit "grok.chat".

Definition sendTextMessage (now : Z) (text : jsstr) : js unit :=
  if negb (truthy (trim text)) then mret tt else
  let msg := trim text in
  r ← reads room;
  if match r with
     | Some ro => match room_state ro with Connected => false | _ => true end
     | None => true
     end
  then mret tt else
  let userId := lit "text-user-" ++ number_to_string now in
  appendTranscriptBubble userId user label_you msg false;;
  try_catch (
    let payload := TextEncoder_encode msg in
    modify (λ s, set_published (published s ++ [(payload, topic)]) s))
  (λ _, mret tt).

(** ** Session *)

Definition setStatus (st : status) : js unit :=
  t ← reads statusText;
  match t with
  | None => mret tt
  | Some _ => modify (set_statusText (Some st))
  end.

Definition initLiveKit : js bool :=
  lk ← reads LiveKitClient;
  if negb lk then mret false else
  modify (set_Room true);;
  mret true.

Definition ensureLiveKit : js bool :=
  bound ← reads Room;
  if (bound : bool) then mret true else
  ok ← initLiveKit;
  if negb ok then mret false else mret true.

Definition ensureMicSupport : js unit :=
  hasGetUserMedia ← reads mediaDevices;
  if (hasGetUserMedia : bool) then mret tt else throw Error.

(** The buttons, the text input row, the microphone icon and the audio
    elements are not part of the state. *)
Definition resetUI : js unit :=
  setStatus disconnected;;
  modify (set_localParticipantIdentity None).

(** What an awaited promise settles with. *)
Inductive value :=
  | authHeader (h : option jsstr)
  | localTracks (n : nat)
  | response (ok : bool)
  | token_url
  | undefined.

Inductive settlement :=
  | fulfilled (v : value)
  | rejected.

Definition suspend (k : continuation) : js unit :=
  modify (λ s, set_suspended (suspended s ++ [k]) s).

(** The [catch] block of [startSession]. *)
Definition startSession_catch (e : exn) : js unit :=
  setStatus error.

Definition startSession : js unit :=
  ok ← ensureLiveKit;
  if negb ok then mret tt else
  try_catch (suspend await_ensurePublicKey) startSession_catch.

(** [for (const track of localTracks) await publishTrack(track)] with [n]
    tracks left. *)
Definition publishTracks (n : nat) : js unit :=
  match n with
  | O => mret tt
  | S m => suspend (await_publishTrack m)
  end.

Definition stopSession : js unit :=
  r ← reads room;
  match r with
  | Some _ => suspend await_disconnect
  | None => resetUI
  end.

(** How a suspended invocation goes on when its promise settles; [None] when
    the promise cannot settle that way. *)
Definition resume (k : continuation) (r : settlement) : option (js unit) :=
  match k, r with
  | await_ensurePublicKey, fulfilled (authHeader h) =>
    Some (try_catch (
      match h with
      | None => mret tt
      | Some _ =>
        setStatus connecting;;
        clearTranscript;;
        ensureMicSupport;;
        suspend await_createLocalTracks
      end) startSession_catch)
  | await_createLocalTracks, fulfilled (localTracks n) =>
    Some (try_catch (suspend (await_fetch n)) startSession_catch)
  | await_fetch n, fulfilled (response ok) =>
    Some (try_catch (
      if negb ok then throw Error else suspend (await_json n))
      startSession_catch)
  | await_json n, fulfilled token_url =>
    Some (try_catch (
      modify (set_room (Some (Build_RoomObject Disconnected [])));;
      suspend (await_connect n)) startSession_catch)
  | await_connect n, fulfilled undefined =>
    Some (try_catch (
      r ← reads room;
      match r with
      | None => throw TypeError
      | Some ro =>
        modify (set_localParticipantIdentity (Some (localParticipant_identity ro)));;
        setStatus connected;;
        publishTracks n
      end) startSession_catch)
  | await_publishTrack n, fulfilled undefined =>
    Some (try_catch (publishTracks n) startSession_catch)
  | await_disconnect, fulfilled undefined => Some resetUI
  | await_disconnect, rejected => Some (throw Error)
  | await_ensurePublicKey, rejected
  | await_createLocalTracks, rejected
  | await_fetch _, rejected
  | await_json _, rejected
  | await_connect _, rejected
  | await_publishTrack _, rejected => Some (startSession_catch Error)
  | _, _ => None
  end.

(** ** Events *)

Inductive event :=
  | click_startBtn
  | click_stopBtn
  | click_clearTranscriptBtn
  | submit_text (now : Z) (value : jsstr)
  | settle (i : nat) (r : settlement)
  | transport (ro : RoomObject)
  | RoomEvent_Disconnected
  | RoomEvent_TranscriptionReceived (segments : list segment)
      (participant : option Participant)
  | RoomEvent_DataReceived (now : Z) (text : jsstr).

Section Page.

Variable JSON_parse : jsstr → option json.

(** The listener an event runs, from the state it arrives in; [None] when
    the event cannot arrive there: a promise that is not pending, or an
    event of a room that was never created.  [transport] is the transport
    changing [room.state] or the local identity on its own. *)
Definition dispatch (ev : event) (s : state) : option (result unit * state) :=
  match ev with
  | click_startBtn => Some (startSession s)
  | click_stopBtn => Some (stopSession s)
  | click_clearTranscriptBtn => Some (clearTranscript s)
  | submit_text now value =>
    Some ((if truthy (trim value) then sendTextMessage now value else mret tt) s)
  | settle i r =>
    k ← suspended s !! i;
    m ← resume k r;
    Some (m (set_suspended (delete i (suspended s)) s))
  | transport ro =>
    match room s with
    | Some _ => Some (Normal tt, set_room (Some ro) s)
    | None => None
    end
  | RoomEvent_Disconnected =>
    match room s with Some _ => Some (resetUI s) | None => None end
  | RoomEvent_TranscriptionReceived segments participant =>
    match room s with
    | Some _ => Some (handleTranscription segments participant s)
    | None => None
    end
  | RoomEvent_DataReceived now text =>
    match room s with
    | Some _ => Some (handleDataMessage JSON_parse now text s)
    | None => None
    end
  end.

(** The state after a run of events, each from the state the one before it
    left, whether its listener returned or threw. *)
Fixpoint run (evs : list event) (s : state) : option state :=
  match evs with
  | [] => Some s
  | ev :: r =>
    match dispatch ev s with
    | Some (_, s') => run r s'
    | None => None
    end
  end.

End Page.

(** The page once the script has loaded: [setStatus('', ...)] has run,
    nothing else has. *)
Definition page (lk md st : bool) (tc : option bool) : state :=
  State lk md false (if st then Some disconnected else None)
    (Container [] <$> tc) [] ∅ None None None [] [].

Inductive reachable (JSON_parse : jsstr → option json) : state → Prop :=
  | reachable_page lk md st tc : reachable JSON_parse (page lk md st tc)
  | reachable_step s ev r s' :
    reachable JSON_parse s →
    dispatch JSON_parse ev s = Some (r, s') →
    reachable JSON_parse s'.

(** ** Reasoning about handlers *)

(** [m] keeps the invariant [I], whether it returns or throws. *)
Definition keeps {A} (I : state → Prop) (m : js A) : Prop :=
  ∀ s, I s → I (exec m s).

Lemma exec_bind {A B} (m : js A) (f : A → js B) s :
  exec (m ≫= f) s =
  match m s with
  | (Normal a, s') => exec (f a) s'
  | (Throw _, s') => s'
  end.
Proof.
  unfold exec, mbind, js_bind. by destruct (m s) as [[a|e] s'].
Qed.

Lemma keeps_bind {A B} (I : state → Prop) (m : js A) (f : A → js B) :
  keeps I m → (∀ a, keeps I (f a)) → keeps I (m ≫= f).
Proof.
  intros Hm Hf s Hs. rewrite exec_bind. specialize (Hm s Hs).
  unfold exec in Hm. destruct (m s) as [[a|e] s']; [by apply Hf | done].
Qed.

Lemma keeps_for_of {A} (I : state → Prop) (l : list A) (body : A → js unit) :
  (∀ x, x ∈ l → keeps I (body x)) → keeps I (for_of l body).
Proof.
  induction l as [|x l IH]; intros Hbody; simpl.
  - by intros s Hs.
  - apply keeps_bind.
    + apply Hbody. left.
    + intros ?. apply IH. intros y Hy. apply Hbody. by right.
Qed.

Arguments lit : simpl never.
Arguments number_to_string : simpl never.
Arguments trim : simpl never.
Arguments TextEncoder_encode : simpl never.
Arguments label_you : simpl never.
Arguments label_Grok : simpl never.
Arguments completed : simpl never.
Arguments audio_delta : simpl never.
Arguments audio_done : simpl never.
Arguments topic : simpl never.

(** Unfolding of a handler down to the state it computes. *)
Ltac run_js :=
  unfold exec, returns, sendTextMessage, handleDataMessage, parse,
    startSession, stopSession, publishTracks, startSession_catch,
    appendTranscriptBubble, handleSegment, clearTranscript,
    hideTranscriptEmpty, scrollTranscript, resetUI, setStatus, ensureLiveKit,
    initLiveKit, ensureMicSupport, suspend, createElement, appendChild,
    update, try_catch, reads, modify, throw, mbind, js_bind, mret, js_ret
    in *;
  cbn in *.

(** ** Well-formed states *)

(** Every location the page holds is allocated, and a page without the
    transcript element holds none. *)
Record wf (s : state) : Prop := {
  wf_segmentElements :
    ∀ k l, segmentElements s !! k = Some l → l < length (heap s);
  wf_lastUserSpeechEntry :
    ∀ l, lastUserSpeechEntry s = Some l → l < length (heap s);
  wf_children : ∀ l, l ∈ entries s → l < length (heap s);
  wf_no_container :
    transcriptContainer s = None →
    segmentElements s = ∅ ∧ lastUserSpeechEntry s = None
}.

Lemma wf_page lk md st tc : wf (page lk md st tc).
Proof.
  split; cbn.
  - intros k l. by rewrite lookup_empty.
  - done.
  - unfold entries. cbn. destruct tc; cbn; intros l Hl; by apply elem_of_nil in Hl.
  - done.
Qed.

(** Case analysis on what a handler branches on, innermost test first. *)
Ltac js_step :=
  match goal with
  | E : ?x = _ |- context [match ?x with _ => _ end] => rewrite E
  | |- context [match ?x with _ => _ end] =>
    lazymatch x with
    | context [match _ with _ => _ end] => fail
    | _ => destruct x eqn:?
    end
  end; cbn.
Ltac js_cases := cbn; repeat js_step.

Ltac wf_lt :=
  match goal with
  | H1 : (∀ k l, segmentElements _ !! k = Some l → _),
    H : segmentElements _ !! _ = Some _ |- _ => apply H1 in H; lia
  | H2 : (∀ l, lastUserSpeechEntry _ = Some l → _),
    H : lastUserSpeechEntry _ = Some _ |- _ => apply H2 in H; lia
  | H3 : (∀ l, l ∈ _ → _), H : _ ∈ _ |- _ => apply H3 in H; lia
  end.

Ltac wf_solve :=
  split; unfold entries; cbn;
  rewrite ?length_app, ?length_alter; cbn;
  try match goal with
      | E : transcriptContainer ?s = _ |- context [transcriptContainer ?s] =>
        rewrite E
      end;
  [ intros ?k ?l ?Hk;
    try (rewrite lookup_insert in Hk; case_decide);
    try (rewrite lookup_empty in Hk);
    simplify_eq; try lia; try wf_lt; try (by auto)
  | intros ?l ?Hl; simplify_eq; try lia; try wf_lt; try (by auto)
  | intros ?l ?Hl;
    try (apply elem_of_app in Hl as [Hl|Hl%list_elem_of_singleton]);
    try (apply elem_of_nil in Hl);
    simplify_eq; try lia; try wf_lt; try (by auto)
  | try done;
    try (match goal with H4 : _ → _ ∧ _ |- _ =>
           intros ?Hn; destruct (H4 Hn); by simplify_eq end) ].

Ltac wf_start :=
  intros s [H1 H2 H3 H4]; unfold entries in H3; run_js.

Lemma keeps_reads {A} (I : state → Prop) (f : state → A) : keeps I (reads f).
Proof. by intros s Hs. Qed.

Lemma keeps_ret {A} (I : state → Prop) (a : A) : keeps I (mret a).
Proof. by intros s Hs. Qed.

Lemma wf_hideTranscriptEmpty : keeps wf hideTranscriptEmpty.
Proof. wf_start; js_cases; wf_solve. Qed.

Lemma wf_handleSegment isLocal seg : keeps wf (handleSegment isLocal seg).
Proof. wf_start; js_cases; wf_solve. Qed.

Lemma wf_handleTranscription segments participant :
  keeps wf (handleTranscription segments participant).
Proof.
  unfold handleTranscription.
  apply keeps_bind; [apply keeps_reads|]. intros tc.
  case_match; [apply keeps_ret|].
  apply keeps_bind; [apply wf_hideTranscriptEmpty|]. intros ?.
  apply keeps_bind; [apply keeps_reads|]. intros lpi.
  apply keeps_bind; [|intros ?; apply keeps_ret].
  apply keeps_for_of. intros seg _. apply wf_handleSegment.
Qed.

Lemma wf_handleDataMessage P now text : keeps wf (handleDataMessage P now text).
Proof. wf_start; js_cases; wf_solve. Qed.

Lemma wf_sendTextMessage now text : keeps wf (sendTextMessage now text).
Proof. wf_start; js_cases; wf_solve. Qed.

Lemma wf_clearTranscript : keeps wf clearTranscript.
Proof. wf_start; js_cases; wf_solve. Qed.

Lemma wf_startSession : keeps wf startSession.
Proof. wf_start; js_cases; wf_solve. Qed.

Lemma wf_stopSession : keeps wf stopSession.
Proof. wf_start; js_cases; wf_solve. Qed.

Lemma wf_resetUI : keeps wf resetUI.
Proof. wf_start; js_cases; wf_solve. Qed.

Lemma wf_resume k r m : resume k r = Some m → keeps wf m.
Proof.
  intros Hm. destruct k, r as [[]|]; simplify_eq/=;
    wf_start; js_cases; wf_solve.
Qed.

Lemma wf_set_suspended v s : wf s → wf (set_suspended v s).
Proof. intros [H1 H2 H3 H4]. by split. Qed.

Lemma wf_set_room v s : wf s → wf (set_room v s).
Proof. intros [H1 H2 H3 H4]. by split. Qed.

Lemma wf_dispatch P ev s r s' :
  wf s → dispatch P ev s = Some (r, s') → wf s'.
Proof.
  intros Hs Hev.
  assert (Hk : ∀ (m : js unit) s0, wf s0 → m s0 = (r, s') → keeps wf m → wf s').
  { intros m s0 Hs0 Hm Hkeeps. specialize (Hkeeps s0 Hs0).
    unfold exec in Hkeeps. by rewrite Hm in Hkeeps. }
  destruct ev; cbn in Hev.
  - injection Hev as Hev. eapply Hk; [done..|apply wf_startSession].
  - injection Hev as Hev. eapply Hk; [done..|apply wf_stopSession].
  - injection Hev as Hev. eapply Hk; [done..|apply wf_clearTranscript].
  - injection Hev as Hev. eapply Hk; [done..|].
    case_match; [apply wf_sendTextMessage|apply keeps_ret].
  - destruct (suspended s !! i) as [k|]; [|done]. cbn in Hev.
    destruct (resume k r0) as [m|] eqn:Hm; [|done]. cbn in Hev.
    injection Hev as Hev.
    eapply Hk; [|done|by eapply wf_resume]. by apply wf_set_suspended.
  - destruct (room s); simplify_eq. by apply wf_set_room.
  - destruct (room s); simplify_eq. eapply Hk; [done..|apply wf_resetUI].
  - destruct (room s); simplify_eq.
    eapply Hk; [done..|apply wf_handleTranscription].
  - destruct (room s); simplify_eq.
    eapply Hk; [done..|apply wf_handleDataMessage].
Qed.

Lemma reachable_wf P s : reachable P s → wf s.
Proof.
  induction 1 as [lk md st tc|s ev r s' _ IH Hev].
  - apply wf_page.
  - by eapply wf_dispatch.
Qed.

(** ** Evaluating a handler under hypotheses *)

Lemma truthy_true s : s ≠ [] → truthy s = true.
Proof. by destruct s. Qed.

Lemma truthy_false s : truthy s = false → s = [].
Proof. by destruct s. Qed.

Lemma truthy_completed : truthy completed = true.
Proof. done. Qed.
Lemma truthy_audio_delta : truthy audio_delta = true.
Proof. done. Qed.
Lemma truthy_audio_done : truthy audio_done = true.
Proof. done. Qed.
Lemma audio_delta_completed : bool_decide (audio_delta = completed) = false.
Proof. by vm_compute. Qed.
Lemma audio_done_completed : bool_decide (audio_done = completed) = false.
Proof. by vm_compute. Qed.
Lemma audio_done_delta : bool_decide (audio_done = audio_delta) = false.
Proof. by vm_compute. Qed.
Lemma bool_decide_refl (x : jsstr) : bool_decide (x = x) = true.
Proof. by apply bool_decide_eq_true_2. Qed.

Create Rewrite HintDb js.
#[global] Hint Rewrite truthy_completed truthy_audio_delta truthy_audio_done
  audio_delta_completed audio_done_completed audio_done_delta
  bool_decide_refl : js.

Ltac js_hyp :=
  match goal with
  | E : ?x = _ |- context [?x] =>
    lazymatch x with _ _ => rewrite E end
  end.

Ltac js_eval :=
  run_js;
  repeat first
    [ progress autorewrite with js | progress cbn
    | progress unfold handleSegment, mbind, js_bind, mret, js_ret, reads,
        modify, createElement, appendChild, update
    | js_hyp ].

(** ** Sample payloads *)

(** The JSON text of an object whose strings need no escaping. *)
Definition JSON_member (name : string) (v : option jsstr) : list jsstr :=
  match v with
  | Some s => [[34%N] ++ lit name ++ [34%N] ++ lit ":" ++ [34%N] ++ s ++ [34%N]]
  | None => []
  end.

Fixpoint join (sep : jsstr) (l : list jsstr) : jsstr :=
  match l with
  | [] => []
  | [x] => x
  | x :: r => x ++ sep ++ join sep r
  end.

Definition JSON_stringify (d : json) : jsstr :=
  match d with
  | JPrimitive b => if b then lit "true" else lit "null"
  | JObject o =>
    lit "{" ++
    join (lit ",")
      (JSON_member "type" (type o) ++ JSON_member "item_id" (item_id o) ++
       JSON_member "transcript" (transcript o) ++ JSON_member "delta" (delta o))
    ++ lit "}"
  end.

(** [JSON.parse] on the texts of the given values; any other text is taken
    not to parse. *)
Definition parses (values : list json) (text : jsstr) : option json :=
  list_find (λ d, JSON_stringify d = text) values ≫= λ p, Some p.2.

(** ** Sample runs *)

Lemma reachable_run P evs s s' :
  reachable P s → run P evs s = Some s' → reachable P s'.
Proof.
  revert s. induction evs as [|ev evs IH]; intros s Hs Hrun; cbn in Hrun.
  - by simplify_eq.
  - destruct (dispatch P ev s) as [[r s1]|] eqn:Hev; [|done].
    eapply IH; [|done]. by eapply reachable_step.
Qed.

(** The state after a run of events; the starting state when the run is not
    possible. *)
Definition after (P : jsstr → option json) (evs : list event) (s : state) : state :=
  default s (run P evs s).

Lemma reachable_after P evs s :
  reachable P s → is_Some (run P evs s) → reachable P (after P evs s).
Proof.
  intros Hs [s' Hrun]. unfold after. rewrite Hrun. by eapply reachable_run.
Qed.

(** A session that connects as "me": start, credentials, microphone, token,
    room, connect, publish of the one track. *)
Definition connect_as_me : list event :=
  [click_startBtn;
   settle 0 (fulfilled (authHeader (Some (lit "Bearer k"))));
   settle 0 (fulfilled (localTracks 1));
   settle 0 (fulfilled (response true));
   settle 0 (fulfilled token_url);
   transport (Build_RoomObject Connected (lit "me"));
   settle 0 (fulfilled undefined);
   settle 0 (fulfilled undefined)].

Definition me : option Participant := Some {| identity := lit "me" |}.
Definition agent : option Participant := Some {| identity := lit "grok" |}.

Definition fresh_page : state := page true true true (Some true).

(** ** C1: a completed transcription re-keys the pending user entry *)

(** The message [{type: completed, item_id, transcript}]. *)
Definition completed_message (id tr : option jsstr) : json :=
  JObject (Object (Some completed) id tr None).

(** The local participant's segment "s1", then a completed transcription
    with an empty [item_id], at time 7. *)
Definition empty_item_id_run : list event :=
  connect_as_me ++
  [RoomEvent_TranscriptionReceived [Segment (lit "s1") (lit "hello") true] me;
   RoomEvent_DataReceived 7
     (JSON_stringify (completed_message (Some []) (Some (lit "Hello there"))))].

(** C1, counterexample.  The pending user entry was created under "s1"; the
    completed message carries the item_id "" (not a known key) and the
    transcript "Hello there".  The entry is corrected and the pending
    reference cleared, but the entry is filed under "user-7", not under the
    item_id of the message. *)
Lemma empty_item_id_is_not_filed :
  let P := parses [completed_message (Some []) (Some (lit "Hello there"))] in
  let s := after P (removelast empty_item_id_run) fresh_page in
  let s' := after P empty_item_id_run fresh_page in
  (segmentElements s !! lit "s1" = Some 0 ∧ lastUserSpeechEntry s = Some 0 ∧
   msg_role <$> heap s !! 0 = Some user ∧ segmentElements s !! [] = None) ∧
  lastUserSpeechEntry s' = None ∧
  entry_text <$> heap s' !! 0 = Some (lit "Hello there") ∧
  segmentElements s' !! lit "user-7" = Some 0 ∧
  segmentElements s' !! [] ≠ Some 0.
Proof. by vm_compute. Qed.

(** C1 (amended): in a state where a user entry created from a transport
    segment is filed under T1 and is the pending correction, a completed
    message with a non-empty item_id P1 that is not a known key and a
    non-empty transcript S creates no entry: the one entry is filed under both
    T1 and P1, reads S, is final, and the pending reference is cleared. *)
Theorem completed_rekeys_pending_entry P now text o s c T1 P1 S l e :
  transcriptContainer s = Some c →
  heap s !! l = Some e → msg_role e = user → msg_segmentId e = T1 →
  segmentElements s !! T1 = Some l →
  lastUserSpeechEntry s = Some l →
  text ≠ [] → P text = Some (JObject o) →
  type o = Some completed →
  item_id o = Some P1 → P1 ≠ [] → segmentElements s !! P1 = None →
  transcript o = Some S → S ≠ [] →
  let s' := exec (handleDataMessage P now text) s in
  returns (handleDataMessage P now text) s ∧
  length (heap s') = length (heap s) ∧
  entries s' = entries s ∧
  segmentElements s' !! T1 = Some l ∧
  segmentElements s' !! P1 = Some l ∧
  heap s' !! l = Some (Entry T1 user (label_text e) S false S) ∧
  lastUserSpeechEntry s' = None.
Proof.
  intros Hc He Hrole Hid HT1 Hlast Htext%truthy_true HP Htype Hitem
    HP1%truthy_true Hnew Htr HS%truthy_true s'.
  assert (HT1P1 : T1 ≠ P1) by (intros ->; congruence).
  subst s'. unfold entries. js_eval.
  rewrite !length_alter, lookup_insert_eq, lookup_insert_ne by done.
  rewrite !list_lookup_alter_eq, He. cbn.
  repeat split; try done; [by eexists|].
  destruct e; cbn in *; by subst.
Qed.

(** The end-to-end scenario of the specification: segment "s1" from the local
    participant, then the completed transcription "p1". *)
Lemma completed_rekeys_pending_entry_witness :
  let m := completed_message (Some (lit "p1")) (Some (lit "Hello there")) in
  let s := after (parses [m]) (connect_as_me ++
    [RoomEvent_TranscriptionReceived [Segment (lit "s1") (lit "hello") true] me])
    fresh_page in
  let s' := exec (handleDataMessage (parses [m]) 0 (JSON_stringify m)) s in
  returns (handleDataMessage (parses [m]) 0 (JSON_stringify m)) s ∧
  length (heap s') = length (heap s) ∧
  entries s' = entries s ∧
  segmentElements s' !! lit "s1" = Some 0 ∧
  segmentElements s' !! lit "p1" = Some 0 ∧
  heap s' !! 0 = Some (Entry (lit "s1") user label_you (lit "Hello there")
                         false (lit "Hello there")) ∧
  lastUserSpeechEntry s' = None.
Proof.
  intros m s.
  apply (completed_rekeys_pending_entry (parses [m]) 0 (JSON_stringify m)
           (Object (Some completed) (Some (lit "p1")) (Some (lit "Hello there")) None)
           s (Container [0] false) (lit "s1") (lit "p1") (lit "Hello there") 0
           (Entry (lit "s1") user label_you (lit "hello") false (lit "hello")));
    by vm_compute.
Defined.
(** ** C2: deltas accumulate, done replaces *)

(** [text] parses to an object of type [ty] whose item_id property is [id]
    and whose property [f] reads [payload] (the empty string when absent). *)
Definition carries (P : jsstr → option json) (ty : jsstr)
    (f : object → option jsstr) (id : option jsstr) (payload : jsstr)
    (text : jsstr) : Prop :=
  text ≠ [] ∧
  ∃ o, P text = Some (JObject o) ∧ type o = Some ty ∧ item_id o = id ∧
       or_else (f o) [] = payload.

(** Data messages in a row, each with the time it is handled at. *)
Definition handleDataMessages (P : jsstr → option json)
    (msgs : list (Z * jsstr)) : js unit :=
  for_of msgs (λ m, handleDataMessage P m.1 m.2).

Definition append_delta (f : jsstr) : entry → entry :=
  (λ e, set_bubble_text (entry_text e) e) ∘
  (λ e, set_entry_text (entry_text e ++ f) e).

Lemma handleDataMessage_returns P now text s :
  (handleDataMessage P now text s).1 = Normal tt.
Proof. run_js; js_cases; done. Qed.

Lemma exec_for_of_cons {A} (x : A) r body s :
  exec (for_of (x :: r) body) s =
  match body x s with
  | (Normal _, s') => exec (for_of r body) s'
  | (Throw _, s') => s'
  end.
Proof. cbn [for_of]. by rewrite exec_bind. Qed.

Lemma delta_unknown P now text s c k f :
  transcriptContainer s = Some c →
  carries P audio_delta delta (Some k) f text → k ≠ [] →
  segmentElements s !! k = None →
  handleDataMessage P now text s =
  (Normal tt,
   if truthy f then
     set_segmentElements (<[k := length (heap s)]> (segmentElements s))
       (set_transcriptContainer
          (Some (Container (children c ++ [length (heap s)]) false))
          (set_heap (heap s ++ [Entry k assistant label_Grok f true f]) s))
   else s).
Proof.
  intros Hc [Htext%truthy_true (o & HP & Hty & Hid & <-)] Hk%truthy_true Hnew.
  destruct (truthy (or_else (delta o) [])) eqn:Hf; js_eval; [|done].
  by destruct s.
Qed.

Lemma delta_known P now text s c k f l :
  transcriptContainer s = Some c →
  carries P audio_delta delta (Some k) f text → k ≠ [] →
  segmentElements s !! k = Some l →
  handleDataMessage P now text s =
  (Normal tt,
   if truthy f then set_heap (alter (append_delta f) l (heap s)) s else s).
Proof.
  intros Hc [Htext%truthy_true (o & HP & Hty & Hid & <-)] Hk%truthy_true Hnew.
  destruct (truthy (or_else (delta o) [])) eqn:Hf; js_eval; [|done].
  by rewrite list_alter_alter_eq.
Qed.

Lemma deltas_known P msgs fs k : 
  k ≠ [] →
  Forall2 (λ m f, carries P audio_delta delta (Some k) f m.2) msgs fs →
  ∀ s c l e,
  transcriptContainer s = Some c →
  segmentElements s !! k = Some l → heap s !! l = Some e →
  bubble_text e = entry_text e →
  let s' := exec (handleDataMessages P msgs) s in
  transcriptContainer s' = Some c ∧
  segmentElements s' = segmentElements s ∧
  length (heap s') = length (heap s) ∧
  heap s' !! l =
    Some (set_bubble_text (entry_text e ++ concat fs)
            (set_entry_text (entry_text e ++ concat fs) e)).
Proof.
  intros Hk. unfold handleDataMessages.
  induction 1 as [|[now text] f msgs fs Hm _ IH]; intros s c l e Hc Hl He Hb.
  - cbn. rewrite app_nil_r, He. destruct e; cbn in *; by subst.
  - rewrite exec_for_of_cons. cbn [fst snd] in *.
    rewrite (delta_known P now text s c k f l) by done.
    destruct (truthy f) eqn:Hf.
    + edestruct (IH (set_heap (alter (append_delta f) l (heap s)) s) c l
                   (append_delta f e)) as (? & ? & Hlen & ?); try done.
      { cbn. by rewrite list_lookup_alter_eq, He. }
      cbn in *. rewrite length_alter in Hlen. rewrite <-app_assoc in *.
      by repeat split.
    + apply truthy_false in Hf as ->. by apply IH.
Qed.

Lemma deltas_unknown P msgs fs k :
  k ≠ [] →
  Forall2 (λ m f, carries P audio_delta delta (Some k) f m.2) msgs fs →
  ∀ s c,
  transcriptContainer s = Some c →
  segmentElements s !! k = None →
  concat fs ≠ [] →
  let s' := exec (handleDataMessages P msgs) s in
  let l := length (heap s) in
  entries s' = entries s ++ [l] ∧
  segmentElements s' = <[k := l]> (segmentElements s) ∧
  length (heap s') = S l ∧
  heap s' !! l =
    Some (Entry k assistant label_Grok (concat fs) true (concat fs)).
Proof.
  intros Hk.
  induction 1 as [|[now text] f msgs fs Hm Hms IH]; intros s c Hc Hnew Hfs;
    [done|].
  unfold handleDataMessages in *. rewrite exec_for_of_cons. cbn [fst snd] in *.
  rewrite (delta_unknown P now text s c k f) by done.
  destruct (truthy f) eqn:Hf.
  - edestruct (deltas_known P msgs fs k Hk Hms
      (set_segmentElements (<[k := length (heap s)]> (segmentElements s))
         (set_transcriptContainer
            (Some (Container (children c ++ [length (heap s)]) false))
            (set_heap (heap s ++ [Entry k assistant label_Grok f true f]) s))))
      as (Hc' & Hm' & Hlen & He); cbn.
    + done.
    + apply lookup_insert_eq.
    + by apply list_lookup_middle.
    + done.
    + unfold handleDataMessages in *. cbn in *.
      rewrite length_app in Hlen. cbn in Hlen.
      unfold entries. rewrite Hc', Hc. repeat split; [done|lia|done].
  - apply truthy_false in Hf as ->. by eapply IH.
Qed.

Lemma done_known P now text s c id S l e :
  transcriptContainer s = Some c →
  carries P audio_done transcript id S text →
  segmentElements s !! or_else id (lit "grok-" ++ number_to_string now) = Some l →
  heap s !! l = Some e →
  let s' := exec (handleDataMessage P now text) s in
  heap s' !! l =
    Some (set_bubble_interim false
            (if truthy S then set_bubble_text S (set_entry_text S e) else e)) ∧
  length (heap s') = length (heap s) ∧
  entries s' = entries s ∧
  segmentElements s' = segmentElements s.
Proof.
  intros Hc [Htext%truthy_true (o & HP & Hty & <- & <-)] Hl He.
  unfold entries.
  destruct (truthy (or_else (transcript o) [])) eqn:HS; js_eval;
    rewrite !length_alter, !list_lookup_alter_eq, He; done.
Qed.

Lemma done_unknown_empty P now text s id :
  carries P audio_done transcript id [] text →
  segmentElements s !! or_else id (lit "grok-" ++ number_to_string now) = None →
  handleDataMessage P now text s = (Normal tt, s).
Proof.
  intros [Htext%truthy_true (o & HP & Hty & <- & HS)] Hl.
  destruct (transcriptContainer s) eqn:Hc; by js_eval.
Qed.

(** The deltas "Hel" and "lo" with the item_id "", at times 1 and 2. *)
Definition delta_message (id : option jsstr) (f : jsstr) : json :=
  JObject (Object (Some audio_delta) id None (Some f)).

Definition empty_item_id_deltas : list event :=
  connect_as_me ++
  [RoomEvent_DataReceived 1 (JSON_stringify (delta_message (Some []) (lit "Hel")));
   RoomEvent_DataReceived 2 (JSON_stringify (delta_message (Some []) (lit "lo")))].

(** C2, counterexample.  With the item_id "" the two deltas make two
    entries, "Hel" under "grok-1" and "lo" under "grok-2": no entry reads
    "Hello" and none is filed under the item_id. *)
Lemma empty_item_id_deltas_do_not_accumulate :
  let P := parses [delta_message (Some []) (lit "Hel");
                   delta_message (Some []) (lit "lo")] in
  let s' := after P empty_item_id_deltas fresh_page in
  entry_text <$> heap s' = [lit "Hel"; lit "lo"] ∧
  segmentElements s' !! lit "grok-1" = Some 0 ∧
  segmentElements s' !! lit "grok-2" = Some 1 ∧
  segmentElements s' !! [] = None ∧
  ¬ ∃ l e, heap s' !! l = Some e ∧ entry_text e = lit "Hel" ++ lit "lo".
Proof.
  repeat split; try by vm_compute.
  intros (l & e & He & Htext).
  destruct l as [|[|l]]; vm_compute in He; simplify_eq; by vm_compute in Htext.
Qed.

(** C2 (amended): for a non-empty item_id k that is not yet a key, delta
    events with fragments f1..fn, at least one of them non-empty, yield one
    interim assistant entry filed under k whose text is f1 ++ ... ++ fn; a
    done event with a non-empty transcript S then replaces the text by S and
    marks the entry final; a done event with an empty transcript leaves the
    text and marks the entry final; and a done event with an empty
    transcript whose key is not known changes nothing. *)
Theorem deltas_accumulate_done_replaces P s c k msgs fs
    nowS textS S nowE textE nowU textU idU s0 :
  transcriptContainer s = Some c →
  k ≠ [] → segmentElements s !! k = None →
  Forall2 (λ m f, carries P audio_delta delta (Some k) f m.2) msgs fs →
  concat fs ≠ [] →
  carries P audio_done transcript (Some k) S textS → S ≠ [] →
  carries P audio_done transcript (Some k) [] textE →
  carries P audio_done transcript idU [] textU →
  segmentElements s0 !! or_else idU (lit "grok-" ++ number_to_string nowU) = None →
  let s1 := exec (handleDataMessages P msgs) s in
  let l := length (heap s) in
  (entries s1 = entries s ++ [l] ∧
   segmentElements s1 !! k = Some l ∧
   heap s1 !! l = Some (Entry k assistant label_Grok (concat fs) true (concat fs))) ∧
  heap (exec (handleDataMessage P nowS textS) s1) !! l =
    Some (Entry k assistant label_Grok S false S) ∧
  heap (exec (handleDataMessage P nowE textE) s1) !! l =
    Some (Entry k assistant label_Grok (concat fs) false (concat fs)) ∧
  handleDataMessage P nowU textU s0 = (Normal tt, s0).
Proof.
  intros Hc Hk Hnew Hmsgs Hfs HS HSne%truthy_true HE HU HU0 s1 l.
  destruct (deltas_unknown P msgs fs k Hk Hmsgs s c Hc Hnew Hfs)
    as (Hentries & Hmap & Hlen & He).
  fold s1 l in Hentries, Hmap, Hlen, He.
  assert (Hl : segmentElements s1 !! k = Some l)
    by (rewrite Hmap; apply lookup_insert_eq).
  assert (Hc1 : ∃ c1, transcriptContainer s1 = Some c1).
  { unfold entries in Hentries. destruct (transcriptContainer s1); [by eexists|].
    by destruct (transcriptContainer s); destruct (app_cons_not_nil _ _ _ Hentries). }
  destruct Hc1 as [c1 Hc1].
  assert (Hkk : ∀ now, or_else (Some k) (lit "grok-" ++ number_to_string now) = k)
    by (intros; by destruct k).
  repeat split; try done.
  - edestruct (done_known P nowS textS s1 c1 (Some k) S l) as [-> _];
      rewrite ?Hkk; try done. by rewrite HSne.
  - edestruct (done_known P nowE textE s1 c1 (Some k) [] l) as [-> _];
      rewrite ?Hkk; done.
  - by eapply done_unknown_empty.
Qed.

Definition done_message (id tr : option jsstr) : json :=
  JObject (Object (Some audio_done) id tr None).

Ltac carries_tac o :=
  split; [by vm_compute|]; exists o; by vm_compute.

(** The deltas "Hel" and "lo" for "i1", then the done events "Hello!" and
    "", and a done event without transcript for the unknown "i2". *)
Lemma deltas_accumulate_done_replaces_witness :
  let d1 := delta_message (Some (lit "i1")) (lit "Hel") in
  let d2 := delta_message (Some (lit "i1")) (lit "lo") in
  let dS := done_message (Some (lit "i1")) (Some (lit "Hello!")) in
  let dE := done_message (Some (lit "i1")) (Some []) in
  let dU := done_message (Some (lit "i2")) None in
  let P := parses [d1; d2; dS; dE; dU] in
  let s := after P connect_as_me fresh_page in
  let s1 := exec (handleDataMessages P
                    [(1%Z, JSON_stringify d1); (2%Z, JSON_stringify d2)]) s in
  (entries s1 = [0] ∧
   segmentElements s1 !! lit "i1" = Some 0 ∧
   heap s1 !! 0 =
     Some (Entry (lit "i1") assistant label_Grok (lit "Hello") true (lit "Hello"))) ∧
  heap (exec (handleDataMessage P 3 (JSON_stringify dS)) s1) !! 0 =
    Some (Entry (lit "i1") assistant label_Grok (lit "Hello!") false (lit "Hello!")) ∧
  heap (exec (handleDataMessage P 4 (JSON_stringify dE)) s1) !! 0 =
    Some (Entry (lit "i1") assistant label_Grok (lit "Hello") false (lit "Hello")) ∧
  handleDataMessage P 5 (JSON_stringify dU) s = (Normal tt, s).
Proof.
  intros d1 d2 dS dE dU P s.
  apply (deltas_accumulate_done_replaces P s (Container [] true) (lit "i1")
           [(1%Z, JSON_stringify d1); (2%Z, JSON_stringify d2)]
           [lit "Hel"; lit "lo"]
           3 (JSON_stringify dS) (lit "Hello!") 4 (JSON_stringify dE)
           5 (JSON_stringify dU) (Some (lit "i2")) s).
  - by vm_compute.
  - by vm_compute.
  - by vm_compute.
  - constructor;
      [carries_tac (Object (Some audio_delta) (Some (lit "i1")) None
                      (Some (lit "Hel")))|].
    constructor; [|constructor].
    carries_tac (Object (Some audio_delta) (Some (lit "i1")) None
                   (Some (lit "lo"))).
  - by vm_compute.
  - carries_tac (Object (Some audio_done) (Some (lit "i1"))
                   (Some (lit "Hello!")) None).
  - by vm_compute.
  - carries_tac (Object (Some audio_done) (Some (lit "i1")) (Some []) None).
  - carries_tac (Object (Some audio_done) (Some (lit "i2")) None None).
  - by vm_compute.
Defined.
(** ** C3: interim only ever becomes final *)

(** Transport batches in a row. *)
Definition handleTranscriptions
    (batches : list (list segment * option Participant)) : js unit :=
  for_of batches (λ b, handleTranscription b.1 b.2).

(** The entry at [l] is final. *)
Definition final_at (l : loc) (s : state) : Prop :=
  ∃ e, heap s !! l = Some e ∧ bubble_interim e = false.

Definition final_in (l : loc) (h : list entry) : Prop :=
  ∃ e, h !! l = Some e ∧ bubble_interim e = false.

Lemma final_in_alter l l' f h :
  (∀ e, bubble_interim e = false → bubble_interim (f e) = false) →
  final_in l h → final_in l (alter f l' h).
Proof.
  intros Hf (e & He & Hi). unfold final_in.
  rewrite list_lookup_alter. case_decide; subst; rewrite He; cbn; eauto.
Qed.

Lemma final_in_app l h h' : final_in l h → final_in l (h ++ h').
Proof.
  intros (e & He & Hi). exists e. split; [|done].
  rewrite lookup_app_l; [done|]. by eapply lookup_lt_Some.
Qed.

Ltac final_solve :=
  match goal with
  | H : final_at ?l ?s |- final_at ?l _ =>
    unfold final_at in *; cbn; fold (final_in l (heap s)) in H;
    repeat first
      [ assumption
      | apply final_in_app
      | apply final_in_alter; [by intros []|] ]
  end.

Ltac final_start := intros s Hfinal; run_js.

Lemma final_handleSegment l isLocal seg :
  keeps (final_at l) (handleSegment isLocal seg).
Proof. final_start; js_cases; final_solve. Qed.

Lemma final_handleTranscription l segments participant :
  keeps (final_at l) (handleTranscription segments participant).
Proof.
  unfold handleTranscription.
  apply keeps_bind; [apply keeps_reads|]. intros tc.
  case_match; [apply keeps_ret|].
  apply keeps_bind; [final_start; js_cases; final_solve|]. intros ?.
  apply keeps_bind; [apply keeps_reads|]. intros lpi.
  apply keeps_bind; [|intros ?; apply keeps_ret].
  apply keeps_for_of. intros seg _. apply final_handleSegment.
Qed.

Lemma final_handleDataMessage l P now text :
  keeps (final_at l) (handleDataMessage P now text).
Proof. final_start; js_cases; final_solve. Qed.

Lemma final_sendTextMessage l now text :
  keeps (final_at l) (sendTextMessage now text).
Proof. final_start; js_cases; final_solve. Qed.

Lemma final_clearTranscript l : keeps (final_at l) clearTranscript.
Proof. final_start; js_cases; final_solve. Qed.

Lemma final_startSession l : keeps (final_at l) startSession.
Proof. final_start; js_cases; final_solve. Qed.

Lemma final_stopSession l : keeps (final_at l) stopSession.
Proof. final_start; js_cases; final_solve. Qed.

Lemma final_resetUI l : keeps (final_at l) resetUI.
Proof. final_start; js_cases; final_solve. Qed.

Lemma final_resume l k r m : resume k r = Some m → keeps (final_at l) m.
Proof.
  intros Hm. destruct k, r as [[]|]; simplify_eq/=;
    final_start; js_cases; final_solve.
Qed.

Lemma final_dispatch P l ev s r s' :
  final_at l s → dispatch P ev s = Some (r, s') → final_at l s'.
Proof.
  intros Hs Hev.
  assert (Hk : ∀ (m : js unit) s0,
             final_at l s0 → m s0 = (r, s') → keeps (final_at l) m →
             final_at l s').
  { intros m s0 Hs0 Hm Hkeeps. specialize (Hkeeps s0 Hs0).
    unfold exec in Hkeeps. by rewrite Hm in Hkeeps. }
  destruct ev; cbn in Hev.
  - injection Hev as Hev. eapply Hk; [done..|apply final_startSession].
  - injection Hev as Hev. eapply Hk; [done..|apply final_stopSession].
  - injection Hev as Hev. eapply Hk; [done..|apply final_clearTranscript].
  - injection Hev as Hev. eapply Hk; [done..|].
    case_match; [apply final_sendTextMessage|apply keeps_ret].
  - destruct (suspended s !! i) as [k|]; [|done]. cbn in Hev.
    destruct (resume k r0) as [m|] eqn:Hm; [|done]. cbn in Hev.
    injection Hev as Hev.
    eapply Hk; [|done|by eapply final_resume]. done.
  - destruct (room s); by simplify_eq.
  - destruct (room s); simplify_eq. eapply Hk; [done..|apply final_resetUI].
  - destruct (room s); simplify_eq.
    eapply Hk; [done..|apply final_handleTranscription].
  - destruct (room s); simplify_eq.
    eapply Hk; [done..|apply final_handleDataMessage].
Qed.

Lemma final_run P l evs s s' :
  final_at l s → run P evs s = Some s' → final_at l s'.
Proof.
  revert s. induction evs as [|ev evs IH]; intros s Hs Hrun; cbn in Hrun.
  - by simplify_eq.
  - destruct (dispatch P ev s) as [[r s1]|] eqn:Hev; [|done].
    eapply IH; [|done]. by eapply final_dispatch.
Qed.

(** The transcript is there and, once a final segment was seen ([b]), the
    entry filed under [i] is final. *)
Definition tracked (i : jsstr) (b : bool) (s : state) : Prop :=
  wf s ∧ is_Some (transcriptContainer s) ∧
  (b = true → ∃ l, segmentElements s !! i = Some l ∧ final_at l s).

Lemma for_of_tracked {A} (I : bool → state → Prop) (t : A → bool) l body :
  (∀ x b s, x ∈ l → I b s →
     ∃ s', body x s = (Normal tt, s') ∧ I (b || t x) s') →
  ∀ b s, I b s →
    ∃ s', for_of l body s = (Normal tt, s') ∧ I (b || existsb t l) s'.
Proof.
  induction l as [|x l IH]; intros Hbody b s Hs; cbn.
  - exists s. by rewrite orb_false_r.
  - destruct (Hbody x b s) as (s1 & Hx & Hs1); [left|done|].
    destruct (IH (λ y b s Hy, Hbody y b s (list_elem_of_further _ _ _ Hy))
                 (b || t x) s1 Hs1) as (s2 & Hl & Hs2).
    exists s2. unfold mbind, js_bind. rewrite Hx, Hl.
    by rewrite orb_assoc.
Qed.

Lemma tracked_handleSegment i isLocal seg b s :
  seg_id seg = i → tracked i b s →
  ∃ s', handleSegment isLocal seg s = (Normal tt, s') ∧
        tracked i (b || seg_final seg) s'.
Proof.
  intros Hi (Hwf & [c Hc] & Hb).
  pose proof (wf_handleSegment isLocal seg s Hwf) as Hwf'.
  revert Hwf'. run_js. rewrite Hi.
  destruct (segmentElements s !! i) as [l|] eqn:Hl; cbn.
  - destruct (lookup_lt_is_Some_2 (heap s) l) as [e He];
      [by eapply wf_segmentElements|].
    destruct (seg_final seg) eqn:Hf; cbn in *; intros Hwf';
      (eexists; split; [done|]; split; [done|split; [by cbn; rewrite Hc|]]).
    + intros _. exists l. split; [done|]. unfold final_at. cbn.
      rewrite !list_lookup_alter_eq, He. by eexists.
    + rewrite orb_false_r. intros ->.
      destruct Hb as (l' & Hl' & Hfin); [done|]. simplify_eq.
      exists l'. split; [done|]. final_solve.
  - rewrite Hc. cbn. intros Hwf'.
    assert (Hb' : b = false).
    { destruct b; [|done]. by destruct Hb as (l' & Hl' & _). }
    subst b. cbn. destruct isLocal; cbn in *.
    all: eexists; split; [done|]; split; [done|]; split; [by eexists|].
    all: intros Hf; exists (length (heap s)); cbn.
    all: rewrite lookup_insert_eq; split; [done|].
    all: unfold final_at; cbn; rewrite list_lookup_middle by done.
    all: eexists; split; [done|]; cbn; by rewrite Hf.
Qed.

Lemma tracked_handleTranscription i segments participant b s :
  (∀ seg, seg ∈ segments → seg_id seg = i) → tracked i b s →
  ∃ s', handleTranscription segments participant s = (Normal tt, s') ∧
        tracked i (b || existsb seg_final segments) s'.
Proof.
  intros Hi Hs. pose proof Hs as (Hwf & [c Hc] & Hb).
  unfold handleTranscription, mbind, js_bind, reads. rewrite Hc. cbn.
  case_bool_decide as Hnil.
  { subst. exists s. cbn. by rewrite orb_false_r. }
  cbn. unfold hideTranscriptEmpty, mbind, js_bind, reads, modify. rewrite Hc.
  set (s1 := set_transcriptContainer _ s).
  assert (Hs1 : tracked i b s1).
  { split; [|split; [by eexists|done]].
    pose proof (wf_hideTranscriptEmpty s Hwf) as Hwf1.
    revert Hwf1. run_js. by rewrite Hc. }
  destruct (for_of_tracked (tracked i) seg_final segments
              (handleSegment (is_local participant (localParticipantIdentity s1)))
              (λ seg b s Hseg, tracked_handleSegment i _ seg b s (Hi seg Hseg))
              b s1 Hs1) as (s2 & Hfor & Hs2).
  exists s2. by rewrite Hfor.
Qed.

Lemma tracked_handleTranscriptions i batches b s :
  (∀ bt seg, bt ∈ batches → seg ∈ bt.1 → seg_id seg = i) → tracked i b s →
  ∃ s', handleTranscriptions batches s = (Normal tt, s') ∧
        tracked i (b || existsb (λ bt, existsb seg_final bt.1) batches) s'.
Proof.
  intros Hi. apply for_of_tracked. intros bt b' s' Hbt Hs'.
  apply tracked_handleTranscription; [|done]. intros seg. by apply Hi.
Qed.

(** C3: from a state of the page that has the transcript, after any
    transport batches whose segments all carry the id i, one of them final,
    the entry filed under i is final, and it stays final through every later
    run of events, of either source or of the user. *)
Theorem final_segment_makes_entry_final P s c i batches :
  reachable P s → transcriptContainer s = Some c →
  (∀ bt seg, bt ∈ batches → seg ∈ bt.1 → seg_id seg = i) →
  (∃ bt seg, bt ∈ batches ∧ seg ∈ bt.1 ∧ seg_final seg = true) →
  let s' := exec (handleTranscriptions batches) s in
  ∃ l, segmentElements s' !! i = Some l ∧
    ∀ evs s'', run P evs s' = Some s'' →
      ∃ e, heap s'' !! l = Some e ∧ bubble_interim e = false.
Proof.
  intros Hs Hc Hi (bt & seg & Hbt & Hseg & Hfinal) s'.
  destruct (tracked_handleTranscriptions i batches false s Hi)
    as (s1 & Hrun & _ & _ & Hfin).
  { split; [by eapply reachable_wf|]. split; [by eexists|done]. }
  subst s'. unfold exec. rewrite Hrun. cbn.
  destruct Hfin as (l & Hl & Hfin).
  { cbn. apply existsb_exists. exists bt. split; [by apply list_elem_of_In|].
    apply existsb_exists. exists seg. split; [by apply list_elem_of_In|done]. }
  exists l. split; [done|]. intros evs s'' Hevs. by eapply final_run.
Qed.

(** Three batches for "s1": interim, final, then an interim straggler. *)
Lemma final_segment_makes_entry_final_witness :
  let P := parses [] in
  let s := after P connect_as_me fresh_page in
  let batches :=
    [([Segment (lit "s1") (lit "he") false], me);
     ([Segment (lit "s1") (lit "hello") true], me);
     ([Segment (lit "s1") (lit "hello?") false], me)] in
  let s' := exec (handleTranscriptions batches) s in
  ∃ l, segmentElements s' !! lit "s1" = Some l ∧
    ∀ evs s'', run P evs s' = Some s'' →
      ∃ e, heap s'' !! l = Some e ∧ bubble_interim e = false.
Proof.
  intros P s batches.
  apply (final_segment_makes_entry_final P s (Container [] true) (lit "s1") batches).
  - apply reachable_after; [apply reachable_page|].
    apply is_Some_alt. by vm_compute.
  - by vm_compute.
  - intros bt seg Hbt Hseg.
    repeat (apply elem_of_cons in Hbt as [->|Hbt];
            [apply list_elem_of_singleton in Hseg as ->; reflexivity|]).
    by apply elem_of_nil in Hbt.
  - exists ([Segment (lit "s1") (lit "hello") true], me),
           (Segment (lit "s1") (lit "hello") true).
    split; [right; left|]. split; [left|reflexivity].
Defined.

(** ** C5: payloads that are not protocol messages *)

(** [text] is not JSON, or has no [type], or a [type] that is none of the
    three known ones. *)
Inductive unrecognised (P : jsstr → option json) (text : jsstr) : Prop :=
  | not_JSON : P text = None → unrecognised P text
  | no_type d : P text = Some d → property type d = None → unrecognised P text
  | unknown_type d t :
    P text = Some d → property type d = Some t →
    t ≠ completed → t ≠ audio_delta → t ≠ audio_done →
    unrecognised P text.

(** C5: a payload that is not valid JSON, has no type or has an unknown
    type leaves the whole state as it is (the entries, the map of
    identities, the pending reference) and the handler returns without an
    exception. *)
Theorem unrecognised_payload_is_ignored P now text s :
  unrecognised P text →
  handleDataMessage P now text s = (Normal tt, s).
Proof.
  intros [HP|d HP Hty|d t HP Hty H1 H2 H3]; run_js; rewrite HP; cbn;
    rewrite ?Hty; cbn.
  - by case_match.
  - rewrite orb_true_r. by case_match.
  - destruct (truthy t) eqn:Ht; cbn.
    + rewrite Ht, orb_false_r.
      rewrite (bool_decide_eq_false_2 (t = completed)),
        (bool_decide_eq_false_2 (t = audio_delta)),
        (bool_decide_eq_false_2 (t = audio_done)) by done.
      by repeat case_match.
    + rewrite orb_true_r. by case_match.
Qed.

Lemma unrecognised_payload_is_ignored_witness :
  let untyped := JObject (Object None (Some (lit "i1")) (Some (lit "hi")) None) in
  let created := JObject (Object (Some (lit "response.created")) (Some (lit "i1")) None None) in
  let P := parses [untyped; created; JPrimitive false] in
  let s := after P (connect_as_me ++
    [RoomEvent_TranscriptionReceived [Segment (lit "s1") (lit "hello") false] me])
    fresh_page in
  handleDataMessage P 1 (lit "not json") s = (Normal tt, s) ∧
  handleDataMessage P 2 (JSON_stringify untyped) s = (Normal tt, s) ∧
  handleDataMessage P 3 (JSON_stringify created) s = (Normal tt, s) ∧
  handleDataMessage P 4 (lit "null") s = (Normal tt, s).
Proof.
  intros untyped created P s. split; [|split; [|split]].
  - apply unrecognised_payload_is_ignored. apply not_JSON. by vm_compute.
  - apply unrecognised_payload_is_ignored.
    apply (no_type P _ untyped); by vm_compute.
  - apply unrecognised_payload_is_ignored.
    apply (unknown_type P _ created (lit "response.created")); by vm_compute.
  - apply unrecognised_payload_is_ignored.
    apply (no_type P _ (JPrimitive false)); by vm_compute.
Defined.

(** ** C9: a completed transcription without transcript *)

(** C9: a completed-transcription message whose transcript is missing or
    empty changes nothing, whatever its item_id: no entry is updated or
    marked final and the pending reference stays.  A done message without
    transcript, in contrast, marks the entry filed under its key final. *)
Theorem completed_without_transcript_is_dropped
    P now text o s now' text' o' s' c l e :
  P text = Some (JObject o) → type o = Some completed →
  transcript o = None ∨ transcript o = Some [] →
  transcriptContainer s' = Some c → text' ≠ [] →
  P text' = Some (JObject o') → type o' = Some audio_done →
  transcript o' = None ∨ transcript o' = Some [] →
  segmentElements s' !! or_else (item_id o') (lit "grok-" ++ number_to_string now')
    = Some l →
  heap s' !! l = Some e →
  handleDataMessage P now text s = (Normal tt, s) ∧
  heap (exec (handleDataMessage P now' text') s') !! l =
    Some (set_bubble_interim false e).
Proof.
  intros HP Hty Htr Hc Htext HP' Hty' Htr' Hl He. split.
  - destruct Htr as [Htr|Htr]; js_eval; by case_match.
  - edestruct (done_known P now' text' s' c (item_id o') [] l e) as [-> _];
      try done.
    split; [done|]. exists o'. repeat split; try done.
    by destruct Htr' as [->| ->].
Qed.

Lemma completed_without_transcript_is_dropped_witness :
  let m := completed_message (Some (lit "s1")) None in
  let d := done_message (Some (lit "s1")) (Some []) in
  let P := parses [m; d] in
  let s := after P (connect_as_me ++
    [RoomEvent_TranscriptionReceived [Segment (lit "s1") (lit "hello") false] me])
    fresh_page in
  handleDataMessage P 1 (JSON_stringify m) s = (Normal tt, s) ∧
  heap (exec (handleDataMessage P 2 (JSON_stringify d)) s) !! 0 =
    Some (Entry (lit "s1") user label_you (lit "hello") false (lit "hello")).
Proof.
  intros m d P s.
  apply (completed_without_transcript_is_dropped P 1 (JSON_stringify m)
           (Object (Some completed) (Some (lit "s1")) None None) s
           2 (JSON_stringify d)
           (Object (Some audio_done) (Some (lit "s1")) (Some []) None) s
           (Container [0] false) 0
           (Entry (lit "s1") user label_you (lit "hello") true (lit "hello")));
    try (by vm_compute); [by left|by right].
Defined.

(** ** C10: segments while the local identity is not recorded *)

Lemma hideTranscriptEmpty_eq s :
  hideTranscriptEmpty s =
  (Normal tt,
   match transcriptContainer s with
   | Some c => set_transcriptContainer (Some (Container (children c) false)) s
   | None => s
   end).
Proof. run_js. by destruct (transcriptContainer s). Qed.

(** What a batch has done, from [s0] to [s], while no local identity is
    recorded: the pending reference is the one of [s0]; every entry
    allocated since [s0] is an assistant entry labelled "Grok"; and every
    key filed since [s0] leads to such an entry. *)
Record unattributed (s0 s : state) : Prop := {
  un_pending : lastUserSpeechEntry s = lastUserSpeechEntry s0;
  un_heap : length (heap s0) ≤ length (heap s);
  un_entries l e :
    length (heap s0) ≤ l → heap s !! l = Some e →
    msg_role e = assistant ∧ label_text e = label_Grok;
  un_keys k l :
    segmentElements s !! k = Some l →
    segmentElements s0 !! k = Some l ∨ length (heap s0) ≤ l < length (heap s)
}.

Lemma unattributed_refl s : unattributed s s.
Proof.
  split; [done|done| |by left].
  intros l e Hl ?%lookup_lt_Some. lia.
Qed.

(** One segment of such a batch: its id is filed afterwards. *)
Lemma unattributed_handleSegment s0 seg s :
  is_Some (transcriptContainer s) → unattributed s0 s →
  ∃ s', handleSegment false seg s = (Normal tt, s') ∧
        is_Some (transcriptContainer s') ∧ unattributed s0 s' ∧
        is_Some (segmentElements s' !! seg_id seg) ∧
        (∀ k, is_Some (segmentElements s !! k) →
              is_Some (segmentElements s' !! k)).
Proof.
  intros [c Hc] [Hlast Hlen Hnew Hkeys]. run_js.
  destruct (segmentElements s !! seg_id seg) as [l|] eqn:Hl; cbn.
  - assert (Hs' : ∀ h, length h = length (heap s) →
               (∀ l e, h !! l = Some e →
                  ∃ e0, heap s !! l = Some e0 ∧ msg_role e = msg_role e0 ∧
                        label_text e = label_text e0) →
               unattributed s0 (set_heap h s)).
    { intros h Hh Hsame. split; cbn; [done|lia| |].
      - intros l0 e Hl0 (e0 & He0 & -> & ->)%Hsame. by eapply Hnew.
      - intros k l0 Hk. rewrite Hh. by apply Hkeys. }
    assert (Halter : ∀ (f : entry → entry) (h : list entry),
               (∀ e, msg_role (f e) = msg_role e ∧ label_text (f e) = label_text e) →
               (∀ l e, h !! l = Some e →
                  ∃ e0, heap s !! l = Some e0 ∧ msg_role e = msg_role e0 ∧
                        label_text e = label_text e0) →
               ∀ l0 e, alter f l h !! l0 = Some e →
                  ∃ e0, heap s !! l0 = Some e0 ∧ msg_role e = msg_role e0 ∧
                        label_text e = label_text e0).
    { intros f h Hf Hh l0 e. rewrite list_lookup_alter.
      case_decide; subst; [|by apply Hh].
      destruct (h !! l0) as [e1|] eqn:He1; intros [=<-].
      destruct (Hh _ _ He1) as (e0 & He0 & Hr & Hlab), (Hf e1) as [-> ->].
      by exists e0. }
    assert (Hid : ∀ l e, heap s !! l = Some e →
               ∃ e0, heap s !! l = Some e0 ∧ msg_role e = msg_role e0 ∧
                     label_text e = label_text e0) by (intros; by eexists).
    destruct (seg_final seg); cbn; eexists;
      (split; [done|]; cbn; split; [rewrite Hc; by eexists|]; split;
       [|split; [by rewrite Hl|done]]);
      (apply Hs'; [by rewrite !length_alter|]);
      repeat (apply Halter; [by intros []|]); done.
  - rewrite Hc. cbn. eexists. split; [done|]. cbn.
    split; [by eexists|]. split; [|split].
    + split; cbn; [done|rewrite length_app; lia| |].
      * intros l e Hl0 [[_ He]|[_ <-]]%lookup_snoc_Some; [by eapply Hnew|done].
      * intros k l. rewrite length_app, lookup_insert. cbn.
        case_decide; [intros [=<-]; right; lia|].
        intros [?|?]%Hkeys; [by left|right; lia].
    + by rewrite lookup_insert_eq.
    + intros k Hk. rewrite lookup_insert. by case_decide.
Qed.

Lemma unattributed_for_of s0 segments :
  ∀ s, is_Some (transcriptContainer s) → unattributed s0 s →
  ∃ s', for_of segments (handleSegment false) s = (Normal tt, s') ∧
        unattributed s0 s' ∧
        (∀ seg, seg ∈ segments → is_Some (segmentElements s' !! seg_id seg)) ∧
        (∀ k, is_Some (segmentElements s !! k) →
              is_Some (segmentElements s' !! k)).
Proof.
  induction segments as [|seg segments IH]; intros s Hc Hs.
  - exists s. split; [done|]. split; [done|]. split; [|done].
    intros seg Hseg. by apply elem_of_nil in Hseg.
  - destruct (unattributed_handleSegment s0 seg s Hc Hs)
      as (s1 & Hseg & Hc1 & Hs1 & Hfiled & Hkeep).
    destruct (IH s1 Hc1 Hs1) as (s' & Hfor & Hs' & Hall & Hkeep').
    exists s'. cbn [for_of]. unfold mbind, js_bind. rewrite Hseg.
    split; [done|]. split; [done|]. split; [|by auto].
    intros seg' [->|Hseg']%elem_of_cons; [by apply Hkeep'|by apply Hall].
Qed.

(** C10: while no local identity is recorded, a batch of segments, whoever
    it comes from, is classified as the assistant's.  It leaves the pending
    reference as it was; every entry it allocates is an assistant entry;
    and, on a page with the transcript, every segment of the batch whose id
    was not filed gets an entry of its own: a new one, with the assistant
    role and the label "Grok". *)
Theorem segments_without_identity_are_assistant segments participant s :
  localParticipantIdentity s = None →
  let s' := exec (handleTranscription segments participant) s in
  lastUserSpeechEntry s' = lastUserSpeechEntry s ∧
  (∀ l e, length (heap s) ≤ l → heap s' !! l = Some e → msg_role e = assistant) ∧
  (is_Some (transcriptContainer s) →
   ∀ seg, seg ∈ segments → segmentElements s !! seg_id seg = None →
     ∃ l e, segmentElements s' !! seg_id seg = Some l ∧
            length (heap s) ≤ l ∧ heap s' !! l = Some e ∧
            msg_role e = assistant ∧ label_text e = label_Grok).
Proof.
  intros Hlpi. cbn zeta.
  unfold exec, handleTranscription, mbind, js_bind, reads.
  destruct (transcriptContainer s) as [c|] eqn:Hc; cbn;
    [|split; [done|split; [|by intros []]];
      intros l e Hl ?%lookup_lt_Some; lia].
  case_bool_decide as Hnil; cbn.
  { subst. split; [done|]. split; [intros l e Hl ?%lookup_lt_Some; lia|].
    intros _ seg Hseg. by apply elem_of_nil in Hseg. }
  rewrite hideTranscriptEmpty_eq, Hc. cbn. rewrite Hlpi.
  replace (is_local participant None) with false by (by destruct participant).
  set (s1 := set_transcriptContainer _ s).
  destruct (unattributed_for_of s segments s1) as (s' & -> & Hs' & Hall & _).
  { by eexists. }
  { destruct (unattributed_refl s). by split. }
  cbn. destruct Hs' as [Hlast Hlen Hnew Hkeys].
  split; [done|]. split; [intros l e Hl He; by eapply Hnew|].
  intros _ seg Hseg Hunknown.
  destruct (Hall seg Hseg) as [l Hl].
  destruct (Hkeys _ _ Hl) as [?|[Hlo Hhi]]; [congruence|].
  destruct (lookup_lt_is_Some_2 (heap s') l Hhi) as [e He].
  destruct (Hnew l e Hlo He). by exists l, e.
Qed.

(** The session is over ([resetUI] has run) when the local participant's
    segments arrive: "s1" gets an assistant entry, which the second
    segment of the batch updates. *)
Lemma segments_without_identity_are_assistant_witness :
  let s := after (parses []) (connect_as_me ++ [RoomEvent_Disconnected])
             fresh_page in
  let segments := [Segment (lit "s1") (lit "he") false;
                   Segment (lit "s1") (lit "hello") true] in
  let s' := exec (handleTranscription segments me) s in
  lastUserSpeechEntry s' = lastUserSpeechEntry s ∧
  (∀ l e, length (heap s) ≤ l → heap s' !! l = Some e → msg_role e = assistant) ∧
  (is_Some (transcriptContainer s) →
   ∀ seg, seg ∈ segments → segmentElements s !! seg_id seg = None →
     ∃ l e, segmentElements s' !! seg_id seg = Some l ∧
            length (heap s) ≤ l ∧ heap s' !! l = Some e ∧
            msg_role e = assistant ∧ label_text e = label_Grok).
Proof.
  intros s segments.
  apply (segments_without_identity_are_assistant segments me s).
  by vm_compute.
Defined.

(** The entry that batch makes: filed under "s1", assistant, "Grok". *)
Lemma segments_without_identity_example :
  let s := after (parses []) (connect_as_me ++ [RoomEvent_Disconnected])
             fresh_page in
  let s' := exec (handleTranscription
                    [Segment (lit "s1") (lit "he") false;
                     Segment (lit "s1") (lit "hello") true] me) s in
  localParticipantIdentity s = None ∧
  segmentElements s' !! lit "s1" = Some 0 ∧
  heap s' = [Entry (lit "s1") assistant label_Grok (lit "hello") false
               (lit "hello")] ∧
  lastUserSpeechEntry s' = None.
Proof. by vm_compute. Qed.

(** ** C6: clearing the transcript *)

Lemma clearTranscript_eq s :
  clearTranscript s =
  (Normal tt,
   match transcriptContainer s with
   | Some _ =>
     set_lastUserSpeechEntry None
       (set_segmentElements ∅
          (set_transcriptContainer (Some (Container [] true)) s))
   | None => s
   end).
Proof. run_js. by destruct (transcriptContainer s). Qed.

Lemma or_else_text t : or_else (Some t) [] = t.
Proof. by destruct t. Qed.

Lemma handleTranscription_new seg participant s c :
  transcriptContainer s = Some c →
  segmentElements s !! seg_id seg = None →
  let l := length (heap s) in
  let isLocal := is_local participant (localParticipantIdentity s) in
  handleTranscription [seg] participant s =
  (Normal tt,
   (if isLocal then set_lastUserSpeechEntry (Some l) else id)
     (set_segmentElements (<[seg_id seg := l]> (segmentElements s))
        (set_transcriptContainer (Some (Container (children c ++ [l]) false))
           (set_heap
              (heap s ++
               [Entry (seg_id seg) (if isLocal then user else assistant)
                  (if isLocal then label_you else label_Grok)
                  (seg_text seg) (negb (seg_final seg)) (seg_text seg)])
              s)))).
Proof.
  intros Hc Hnew l isLocal. subst l isLocal.
  pose proof (or_else_text (seg_text seg)) as Hor.
  unfold handleTranscription. js_eval. rewrite !Hor.
  destruct (is_local participant (localParticipantIdentity s)); by destruct s.
Qed.

(** C6: in every state the page can reach, clearing the transcript leaves no
    entry shown, an empty map of identities (the one map holds the
    transport ids and the protocol ids) and no pending reference; it returns
    without an exception, and clearing again changes nothing.  When the
    transcript element is there, a segment that arrives after the clear, with
    whatever id, gets an entry at a location never used before, filed alone in
    the map and built from the segment alone. *)
Theorem clearTranscript_discards_everything P s seg participant :
  reachable P s →
  let s0 := exec clearTranscript s in
  let s1 := exec (handleTranscription [seg] participant) s0 in
  let l := length (heap s) in
  let isLocal := is_local participant (localParticipantIdentity s) in
  (entries s0 = [] ∧ segmentElements s0 = ∅ ∧ lastUserSpeechEntry s0 = None) ∧
  clearTranscript s = (Normal tt, s0) ∧
  clearTranscript s0 = (Normal tt, s0) ∧
  (is_Some (transcriptContainer s) →
   (∀ k l0, segmentElements s !! k = Some l0 → l0 < l) ∧
   segmentElements s1 = {[seg_id seg := l]} ∧
   entries s1 = [l] ∧
   lastUserSpeechEntry s1 = (if isLocal then Some l else None) ∧
   heap s1 = heap s ++
     [Entry (seg_id seg) (if isLocal then user else assistant)
        (if isLocal then label_you else label_Grok)
        (seg_text seg) (negb (seg_final seg)) (seg_text seg)]).
Proof.
  intros Hs%reachable_wf s0 s1 l isLocal.
  assert (Hs0 : clearTranscript s = (Normal tt, s0)).
  { subst s0. unfold exec. by rewrite clearTranscript_eq. }
  split; [|split; [done|split]].
  - subst s0. unfold exec, entries. rewrite clearTranscript_eq. cbn.
    destruct (transcriptContainer s) eqn:Hc; cbn; [done|].
    rewrite Hc. by destruct (wf_no_container s Hs Hc).
  - subst s0. unfold exec. rewrite !clearTranscript_eq. cbn.
    destruct (transcriptContainer s) eqn:Hc; cbn; [done|]. by rewrite Hc.
  - intros [c Hc]. split; [by apply wf_segmentElements|].
    assert (Hs0' : s0 = set_lastUserSpeechEntry None
                          (set_segmentElements ∅
                             (set_transcriptContainer
                                (Some (Container [] true)) s))).
    { subst s0. unfold exec. by rewrite clearTranscript_eq, Hc. }
    subst s1 l isLocal. clearbody s0. subst s0. unfold exec, entries.
    rewrite (handleTranscription_new seg participant _ (Container [] true))
      by (done || apply lookup_empty).
    cbn. destruct (is_local participant (localParticipantIdentity s)); cbn;
      by rewrite insert_empty.
Qed.

(** The segment "s1" is seen, the transcript cleared, and "s1" seen again. *)
Lemma clearTranscript_discards_everything_witness :
  let P := parses [] in
  let seg := Segment (lit "s1") (lit "again") false in
  let s := after P (connect_as_me ++
    [RoomEvent_TranscriptionReceived [Segment (lit "s1") (lit "hello") true] me])
    fresh_page in
  let s0 := exec clearTranscript s in
  let s1 := exec (handleTranscription [seg] me) s0 in
  (entries s0 = [] ∧ segmentElements s0 = ∅ ∧ lastUserSpeechEntry s0 = None) ∧
  clearTranscript s = (Normal tt, s0) ∧
  clearTranscript s0 = (Normal tt, s0) ∧
  (is_Some (transcriptContainer s) →
   (∀ k l0, segmentElements s !! k = Some l0 → l0 < 1) ∧
   segmentElements s1 = {[lit "s1" := 1]} ∧
   entries s1 = [1] ∧
   lastUserSpeechEntry s1 = Some 1 ∧
   heap s1 = heap s ++
     [Entry (lit "s1") user label_you (lit "again") true (lit "again")]).
Proof.
  intros P seg s.
  apply (clearTranscript_discards_everything P s seg me).
  apply reachable_after; [apply reachable_page|].
  apply is_Some_alt. by vm_compute.
Defined.

(** ** C7: what a typed message publishes *)

(** C7, counterexample.  Connected as "me", the user sends " hi ": the bytes
    of "hi" are published, on the topic "grok.chat" and not on "chat". *)
Lemma typed_message_topic_is_not_chat :
  let s := after (parses []) connect_as_me fresh_page in
  let s' := exec (sendTextMessage 5 (lit " hi ")) s in
  (room_state <$> room s = Some Connected ∧ trim (lit " hi ") = lit "hi") ∧
  published s' = [([104; 105]%N, lit "grok.chat")] ∧
  published s' ≠
    published s ++ [(TextEncoder_encode (trim (lit " hi ")), lit "chat")].
Proof. by vm_compute. Qed.

(** C7 (amended): when the transcript element is there, the session is
    connected and the typed text is not blank, [sendTextMessage] returns and
    makes one publish call: the UTF-8 bytes of the trimmed text and nothing
    else, on the topic "grok.chat". *)
Theorem typed_message_is_published now text s c ro :
  trim text ≠ [] →
  room s = Some ro → room_state ro = Connected →
  transcriptContainer s = Some c →
  returns (sendTextMessage now text) s ∧
  published (exec (sendTextMessage now text) s) =
    published s ++ [(TextEncoder_encode (trim text), lit "grok.chat")].
Proof.
  intros Htext%truthy_true Hroom Hst Hc. js_eval. split; [by eexists|done].
Qed.

Lemma typed_message_is_published_witness :
  let s := after (parses []) connect_as_me fresh_page in
  returns (sendTextMessage 5 (lit " hi ")) s ∧
  published (exec (sendTextMessage 5 (lit " hi ")) s) =
    published s ++ [(TextEncoder_encode (trim (lit " hi ")), lit "grok.chat")].
Proof.
  intros s.
  apply (typed_message_is_published 5 (lit " hi ") s (Container [] true)
           (Build_RoomObject Connected (lit "me"))); by vm_compute.
Defined.

(** ** C8: the entry of a typed message *)

Lemma lit_inj s1 s2 : lit s1 = lit s2 → s1 = s2.
Proof.
  unfold lit. intros H.
  rewrite <-(string_of_list_ascii_of_string s1),
          <-(string_of_list_ascii_of_string s2).
  f_equal. revert H. generalize (list_ascii_of_string s1) as l1.
  generalize (list_ascii_of_string s2) as l2.
  induction l2 as [|a2 l2 IH]; intros [|a1 l1] H; simplify_eq/=; [done|].
  f_equal; [|by apply IH].
  by rewrite <-(ascii_N_embedding a1), <-(ascii_N_embedding a2), H.
Qed.

Lemma number_to_string_inj a b :
  number_to_string a = number_to_string b → a = b.
Proof.
  unfold number_to_string. intros H%lit_inj.
  apply DecimalZ.to_int_inj.
  assert (Some (Z.to_int a) = Some (Z.to_int b)) as [=]; [|done].
  by rewrite <-!NilEmpty.isi, H.
Qed.

(** The key of the entry of a message typed at time [now]. *)
Definition typed_key (now : Z) : jsstr :=
  lit "text-user-" ++ number_to_string now.

Lemma typed_key_inj a b : typed_key a = typed_key b → a = b.
Proof. intros H%app_inv_head. by apply number_to_string_inj. Qed.

Lemma user_key_ne a b : lit "user-" ++ number_to_string a ≠ typed_key b.
Proof. unfold typed_key. by intros [=]. Qed.

Lemma grok_key_ne a b : lit "grok-" ++ number_to_string a ≠ typed_key b.
Proof. unfold typed_key. by intros [=]. Qed.

(** The events of a run carry other ids than [key]: the segments of a
    transport batch, and the item_id of a protocol message. *)
Definition avoids (P : jsstr → option json) (key : jsstr) (ev : event) : Prop :=
  match ev with
  | RoomEvent_TranscriptionReceived segments _ =>
    ∀ seg, seg ∈ segments → seg_id seg ≠ key
  | RoomEvent_DataReceived _ text =>
    ∀ d, P text = Some d → property item_id d ≠ Some key
  | _ => True
  end.

(** The entry at [l] is [e], only [key] can lead to it, and it is not the
    pending user entry. *)
Definition isolated (l : loc) (key : jsstr) (e : entry) (s : state) : Prop :=
  heap s !! l = Some e ∧
  (∀ k, segmentElements s !! k = Some l → k = key) ∧
  lastUserSpeechEntry s ≠ Some l.

Lemma or_else_ne v d key :
  v ≠ Some key → d ≠ key → or_else v d ≠ key.
Proof.
  intros Hv Hd. destruct v as [k|]; cbn; [|done].
  destruct (truthy k); [|done]. congruence.
Qed.

Ltac isolated_ne :=
  match goal with
  | H2 : (∀ k, segmentElements ?s !! k = Some ?l → k = ?key),
    H : segmentElements ?s !! ?k = Some ?l |- _ =>
    apply H2 in H; congruence
  end.

Ltac isolated_solve :=
  match goal with
  | H : isolated ?l ?key ?e ?s |- isolated ?l ?key ?e _ =>
    let H1 := fresh "H1" in
    let H2 := fresh "H2" in
    let H3 := fresh "H3" in
    destruct H as (H1 & H2 & H3);
    pose proof (lookup_lt_Some _ _ _ H1);
    split; [|split]; cbn;
    [ repeat (rewrite list_lookup_alter_ne;
              [|intros ->; first [isolated_ne | congruence]]);
      rewrite ?lookup_app_l by done; done
    | intros ?k ?Hk;
      try (rewrite lookup_insert in Hk; case_decide);
      try (rewrite lookup_empty in Hk);
      simplify_eq; try lia; try congruence; by auto
    | try done; intros [=]; try lia; congruence ]
  end.

Lemma isolated_handleSegment l key e isLocal seg :
  seg_id seg ≠ key → keeps (isolated l key e) (handleSegment isLocal seg).
Proof. intros Hne s Hs. run_js. js_cases; isolated_solve. Qed.

Lemma isolated_handleTranscription l key e segments participant :
  (∀ seg, seg ∈ segments → seg_id seg ≠ key) →
  keeps (isolated l key e) (handleTranscription segments participant).
Proof.
  intros Hne. unfold handleTranscription.
  apply keeps_bind; [apply keeps_reads|]. intros tc.
  case_match; [apply keeps_ret|].
  apply keeps_bind; [intros s Hs; run_js; js_cases; isolated_solve|]. intros ?.
  apply keeps_bind; [apply keeps_reads|]. intros lpi.
  apply keeps_bind; [|intros ?; apply keeps_ret].
  apply keeps_for_of. intros seg Hseg. apply isolated_handleSegment. auto.
Qed.

Lemma isolated_handleDataMessage l key e P now text :
  (∀ d, P text = Some d → property item_id d ≠ Some key) →
  (∀ n, lit "user-" ++ number_to_string n ≠ key) →
  (∀ n, lit "grok-" ++ number_to_string n ≠ key) →
  keeps (isolated l key e) (handleDataMessage P now text).
Proof.
  intros Hne Hu Hg s Hs. run_js.
  destruct (P text) as [d|] eqn:HP; cbn.
  - pose proof (or_else_ne _ _ key (Hne d eq_refl) (Hu now)).
    pose proof (or_else_ne _ _ key (Hne d eq_refl) (Hg now)).
    js_cases; isolated_solve.
  - js_cases; isolated_solve.
Qed.

Lemma isolated_sendTextMessage l key e now text :
  keeps (isolated l key e) (sendTextMessage now text).
Proof. intros s Hs. run_js. js_cases; isolated_solve. Qed.

Lemma isolated_clearTranscript l key e : keeps (isolated l key e) clearTranscript.
Proof. intros s Hs. run_js. js_cases; isolated_solve. Qed.

Lemma isolated_startSession l key e : keeps (isolated l key e) startSession.
Proof. intros s Hs. run_js. js_cases; isolated_solve. Qed.

Lemma isolated_stopSession l key e : keeps (isolated l key e) stopSession.
Proof. intros s Hs. run_js. js_cases; isolated_solve. Qed.

Lemma isolated_resetUI l key e : keeps (isolated l key e) resetUI.
Proof. intros s Hs. run_js. js_cases; isolated_solve. Qed.

Lemma isolated_resume l key e k r m :
  resume k r = Some m → keeps (isolated l key e) m.
Proof.
  intros Hm. destruct k, r as [[]|]; simplify_eq/=;
    intros s Hs; run_js; js_cases; isolated_solve.
Qed.

Lemma isolated_dispatch P l now e ev s r s' :
  avoids P (typed_key now) ev →
  isolated l (typed_key now) e s → dispatch P ev s = Some (r, s') →
  isolated l (typed_key now) e s'.
Proof.
  intros Hav Hs Hev.
  assert (Hk : ∀ (m : js unit) s0,
             isolated l (typed_key now) e s0 → m s0 = (r, s') →
             keeps (isolated l (typed_key now) e) m →
             isolated l (typed_key now) e s').
  { intros m s0 Hs0 Hm Hkeeps. specialize (Hkeeps s0 Hs0).
    unfold exec in Hkeeps. by rewrite Hm in Hkeeps. }
  destruct ev; cbn in Hev, Hav.
  - injection Hev as Hev. eapply Hk; [done..|apply isolated_startSession].
  - injection Hev as Hev. eapply Hk; [done..|apply isolated_stopSession].
  - injection Hev as Hev. eapply Hk; [done..|apply isolated_clearTranscript].
  - injection Hev as Hev. eapply Hk; [done..|].
    case_match; [apply isolated_sendTextMessage|apply keeps_ret].
  - destruct (suspended s !! i) as [k|]; [|done]. cbn in Hev.
    destruct (resume k r0) as [m|] eqn:Hm; [|done]. cbn in Hev.
    injection Hev as Hev.
    eapply Hk; [|done|by eapply isolated_resume]. done.
  - destruct (room s); by simplify_eq.
  - destruct (room s); simplify_eq. eapply Hk; [done..|apply isolated_resetUI].
  - destruct (room s); simplify_eq.
    eapply Hk; [done..|by apply isolated_handleTranscription].
  - destruct (room s); simplify_eq.
    eapply Hk; [done..|].
    apply isolated_handleDataMessage; [done|..]; intros n.
    + apply user_key_ne.
    + apply grok_key_ne.
Qed.

Lemma isolated_run P l now e evs s s' :
  Forall (avoids P (typed_key now)) evs →
  isolated l (typed_key now) e s → run P evs s = Some s' →
  isolated l (typed_key now) e s'.
Proof.
  intros Hav. revert s.
  induction Hav as [|ev evs Hev _ IH]; intros s Hs Hrun; cbn in Hrun.
  - by simplify_eq.
  - destruct (dispatch P ev s) as [[r s1]|] eqn:Hd; [|done].
    eapply IH; [|done]. by eapply isolated_dispatch.
Qed.

(** A message typed at time 5, then a transport segment whose id is the key
    of its entry. *)
Definition typed_key_collision : list event :=
  connect_as_me ++
  [submit_text 5 (lit "hi");
   RoomEvent_TranscriptionReceived
     [Segment (lit "text-user-5") (lit "x") true] agent].

(** C8, counterexample.  The typed entry is filed under "text-user-5"; a
    later transport segment with that id looks it up and overwrites its
    text; and a second message typed in the same millisecond gets the same
    key. *)
Lemma typed_entry_is_looked_up :
  let P := parses [] in
  let s := after P (removelast typed_key_collision) fresh_page in
  let s' := after P typed_key_collision fresh_page in
  let s2 := after P (connect_as_me ++
              [submit_text 5 (lit "hi"); submit_text 5 (lit "yo")])
              fresh_page in
  segmentElements s !! lit "text-user-5" = Some 0 ∧
  entry_text <$> heap s !! 0 = Some (lit "hi") ∧
  entry_text <$> heap s' !! 0 = Some (lit "x") ∧
  msg_segmentId <$> heap s2 = [lit "text-user-5"; lit "text-user-5"] ∧
  segmentElements s2 !! lit "text-user-5" = Some 1.
Proof. by vm_compute. Qed.

(** C8 (amended): a typed message that is sent (transcript element there,
    session connected, text not blank) gets its entry at once: a final user
    entry with the trimmed text, at a new location, filed under
    "text-user-" followed by the time in milliseconds.  Messages typed at
    different times get different keys, and the keys the protocol handler
    makes up ("user-...", "grok-...") are never that key.  Through any later
    run of events in which the transport segments and the protocol messages
    carry other ids, the entry stays as it was created. *)
Theorem typed_entry_is_isolated P now text s c ro :
  reachable P s →
  trim text ≠ [] →
  room s = Some ro → room_state ro = Connected →
  transcriptContainer s = Some c →
  let key := typed_key now in
  let l := length (heap s) in
  let e := Entry key user label_you (trim text) false (trim text) in
  let s1 := exec (sendTextMessage now text) s in
  (heap s1 = heap s ++ [e] ∧ entries s1 = entries s ++ [l] ∧
   segmentElements s1 !! key = Some l ∧
   lastUserSpeechEntry s1 = lastUserSpeechEntry s) ∧
  (∀ now', now' ≠ now → typed_key now' ≠ key) ∧
  (∀ now', lit "user-" ++ number_to_string now' ≠ key ∧
           lit "grok-" ++ number_to_string now' ≠ key) ∧
  (∀ evs s2, Forall (avoids P key) evs → run P evs s1 = Some s2 →
     heap s2 !! l = Some e).
Proof.
  intros Hs%reachable_wf Htext%truthy_true Hroom Hst Hc key l e s1.
  assert (Hs1 : s1 =
    set_published
      (published s ++ [(TextEncoder_encode (trim text), topic)])
      (set_segmentElements (<[key := l]> (segmentElements s))
         (set_transcriptContainer (Some (Container (children c ++ [l]) false))
            (set_heap (heap s ++ [e]) s)))).
  { subst s1 key l e. unfold typed_key. js_eval. by destruct s. }
  clearbody s1. subst s1.
  split; [|split; [|split]].
  - unfold entries. cbn. rewrite Hc. by rewrite lookup_insert_eq.
  - intros now' Hne Heq. by apply typed_key_inj in Heq.
  - intros now'. split; [apply user_key_ne|apply grok_key_ne].
  - intros evs s2 Hav Hrun.
    eapply (isolated_run P l now e) in Hrun as (He & _); [done..|].
    split; [|split]; cbn.
    + by apply list_lookup_middle.
    + intros k. rewrite lookup_insert. case_decide; [done|].
      intros Hk%(wf_segmentElements s Hs). subst l. lia.
    + intros Hl%(wf_lastUserSpeechEntry s Hs). subst l. lia.
Qed.

(** The message " hi " typed at time 5, then the agent's segment "s1" and
    the deltas of "i1". *)
Lemma typed_entry_is_isolated_witness :
  let d := delta_message (Some (lit "i1")) (lit "Hel") in
  let P := parses [d] in
  let s := after P connect_as_me fresh_page in
  let key := typed_key 5 in
  let e := Entry key user label_you (trim (lit " hi ")) false (trim (lit " hi ")) in
  let s1 := exec (sendTextMessage 5 (lit " hi ")) s in
  (heap s1 = heap s ++ [e] ∧ entries s1 = entries s ++ [0] ∧
   segmentElements s1 !! key = Some 0 ∧
   lastUserSpeechEntry s1 = lastUserSpeechEntry s) ∧
  (∀ now', now' ≠ 5%Z → typed_key now' ≠ key) ∧
  (∀ now', lit "user-" ++ number_to_string now' ≠ key ∧
           lit "grok-" ++ number_to_string now' ≠ key) ∧
  (∀ evs s2, Forall (avoids P key) evs → run P evs s1 = Some s2 →
     heap s2 !! 0 = Some e).
Proof.
  intros d P s.
  apply (typed_entry_is_isolated P 5 (lit " hi ") s (Container [] true)
           (Build_RoomObject Connected (lit "me"))); try by vm_compute.
  apply reachable_after; [apply reachable_page|].
  apply is_Some_alt. by vm_compute.
Defined.

(** ** C4: stop while connecting *)

(** Start, credentials; stop while the microphone is being acquired; then
    the microphone, the token, the room, and a connect that succeeds. *)
Definition stop_while_connecting : list event :=
  [click_startBtn;
   settle 0 (fulfilled (authHeader (Some (lit "Bearer k"))));
   click_stopBtn;
   settle 0 (fulfilled (localTracks 1));
   settle 0 (fulfilled (response true));
   settle 0 (fulfilled token_url);
   transport (Build_RoomObject Connected (lit "me"));
   settle 0 (fulfilled undefined)].





(** The connect is in flight and the stop request arrives: the state stays
    connecting until one of the two promises settles; the final state is
    connected when the disconnect settles first, and disconnected when the
    connect does. *)
Lemma stop_with_connect_in_flight :
  let P := parses [] in
  let s := after P (take 2 stop_while_connecting ++
                    [settle 0 (fulfilled (localTracks 1));
                     settle 0 (fulfilled (response true));
                     settle 0 (fulfilled token_url)]) fresh_page in
  statusText s = Some connecting ∧
  suspended s = [await_connect 1] ∧
  (statusText <$> run P [click_stopBtn] s) = Some (Some connecting) ∧
  (suspended <$> run P [click_stopBtn] s) =
    Some [await_connect 1; await_disconnect] ∧
  (statusText <$> run P [click_stopBtn;
                         settle 1 (fulfilled undefined);
                         settle 0 (fulfilled undefined)] s) =
    Some (Some connected) ∧
  (statusText <$> run P [click_stopBtn;
                         settle 0 (fulfilled undefined);
                         settle 0 (fulfilled undefined)] s) =
    Some (Some disconnected).
Proof. by vm_compute. Qed.



(** * Further properties of the page *)

(** ** Invariants of the page *)

(** [I] is kept by every listener of the page, and by the transport when it
    changes the room. *)
Record invariant (P : jsstr → option json) (I : state → Prop) : Prop := {
  inv_startSession : keeps I startSession;
  inv_stopSession : keeps I stopSession;
  inv_resetUI : keeps I resetUI;
  inv_clearTranscript : keeps I clearTranscript;
  inv_hideTranscriptEmpty : keeps I hideTranscriptEmpty;
  inv_handleSegment isLocal seg : keeps I (handleSegment isLocal seg);
  inv_handleDataMessage now text : keeps I (handleDataMessage P now text);
  inv_sendTextMessage now text : keeps I (sendTextMessage now text);
  inv_resume k r m : resume k r = Some m → keeps I m;
  inv_set_suspended v s : I s → I (set_suspended v s);
  inv_set_room ro s : I s → I (set_room (Some ro) s)
}.

Section Invariant.

Context (P : jsstr → option json) (I : state → Prop).
Hypothesis HI : invariant P I.

Lemma invariant_handleTranscription segments participant :
  keeps I (handleTranscription segments participant).
Proof.
  unfold handleTranscription.
  apply keeps_bind; [apply keeps_reads|]. intros tc.
  case_match; [apply keeps_ret|].
  apply keeps_bind; [apply (inv_hideTranscriptEmpty P I HI)|]. intros ?.
  apply keeps_bind; [apply keeps_reads|]. intros lpi.
  apply keeps_bind; [|intros ?; apply keeps_ret].
  apply keeps_for_of. intros seg _. apply (inv_handleSegment P I HI).
Qed.

Lemma invariant_dispatch ev s r s' :
  I s → dispatch P ev s = Some (r, s') → I s'.
Proof.
  intros Hs Hev.
  assert (Hk : ∀ (m : js unit) s0, I s0 → m s0 = (r, s') → keeps I m → I s').
  { intros m s0 Hs0 Hm Hkeeps. specialize (Hkeeps s0 Hs0).
    unfold exec in Hkeeps. by rewrite Hm in Hkeeps. }
  destruct HI. destruct ev; cbn in Hev.
  - injection Hev as Hev. by eapply Hk.
  - injection Hev as Hev. by eapply Hk.
  - injection Hev as Hev. by eapply Hk.
  - injection Hev as Hev. eapply Hk; [done..|].
    case_match; [done|apply keeps_ret].
  - destruct (suspended s !! i) as [k|]; [|done]. cbn in Hev.
    destruct (resume k r0) as [m|] eqn:Hm; [|done]. cbn in Hev.
    injection Hev as Hev. eapply Hk; [|done|by eauto]. auto.
  - destruct (room s); simplify_eq. auto.
  - destruct (room s); simplify_eq. by eapply Hk.
  - destruct (room s); simplify_eq.
    eapply Hk; [done..|apply invariant_handleTranscription].
  - destruct (room s); simplify_eq. by eapply Hk.
Qed.

Lemma invariant_run evs s s' : I s → run P evs s = Some s' → I s'.
Proof.
  revert s. induction evs as [|ev evs IH]; intros s Hs Hrun; cbn in Hrun.
  - by simplify_eq.
  - destruct (dispatch P ev s) as [[r s1]|] eqn:Hev; [|done].
    eapply IH; [|done]. by eapply invariant_dispatch.
Qed.

Lemma invariant_reachable s :
  (∀ lk md st tc, I (page lk md st tc)) → reachable P s → I s.
Proof.
  intros Hpage. induction 1 as [lk md st tc|s ev r s' _ IH Hev]; [done|].
  by eapply invariant_dispatch.
Qed.
End Invariant.

(** A proof that [I] is an invariant: every listener is unfolded and split
    into its cases, and [solve] closes each case. *)
Ltac invariant_by solve :=
  split;
  [ intros s Hs; run_js; js_cases; solve
  | intros s Hs; run_js; js_cases; solve
  | intros s Hs; run_js; js_cases; solve
  | intros s Hs; run_js; js_cases; solve
  | intros s Hs; run_js; js_cases; solve
  | intros isLocal seg s Hs; run_js; js_cases; solve
  | intros now text s Hs; run_js; js_cases; solve
  | intros now text s Hs; run_js; js_cases; solve
  | intros k r m Hm; destruct k, r as [[]|]; simplify_eq/=;
    intros s Hs; run_js; js_cases; solve
  | intros v s Hs; solve
  | intros v s Hs; solve ].

(** ** The session shown as connected *)

(** While the page shows "connected" the room object exists and the local
    identity is recorded. *)
Definition connected_has_identity (s : state) : Prop :=
  statusText s = Some connected →
  is_Some (room s) ∧ is_Some (localParticipantIdentity s).

Lemma connected_has_identity_invariant P : invariant P connected_has_identity.
Proof.
  invariant_by ltac:(
    unfold connected_has_identity in *; cbn in *;
    try (intros; simplify_eq; done);
    try (intros _; split; by eexists);
    try (intros ?; destruct Hs; [congruence|]; by split)).
Qed.

(** X1: the page shows "connected" only while the room exists and the local
    participant's identity is recorded. *)
Theorem connected_page_has_room_and_identity P s :
  reachable P s → statusText s = Some connected →
  is_Some (room s) ∧ is_Some (localParticipantIdentity s).
Proof.
  intros Hs.
  apply (invariant_reachable P connected_has_identity); [|by intros lk md []|done].
  apply connected_has_identity_invariant.
Qed.

Lemma connected_page_has_room_and_identity_witness :
  let s := after (parses []) connect_as_me fresh_page in
  is_Some (room s) ∧ is_Some (localParticipantIdentity s).
Proof.
  intros s. apply (connected_page_has_room_and_identity (parses []) s).
  - apply reachable_after; [apply reachable_page|].
    apply is_Some_alt. by vm_compute.
  - by vm_compute.
Defined.

(** ** What an entry keeps *)

(** The entry at [l] is allocated and satisfies [φ]. *)
Definition holds_in (φ : entry → Prop) (l : loc) (h : list entry) : Prop :=
  ∃ e, h !! l = Some e ∧ φ e.

(** [φ] survives the three updates the handlers make to an entry. *)
Record stable (φ : entry → Prop) : Prop := {
  stable_bubble_text v e : φ e → φ (set_bubble_text v e);
  stable_entry_text v e : φ e → φ (set_entry_text v e);
  stable_final e : φ e → φ (set_bubble_interim false e)
}.

Lemma holds_in_alter φ l l' f h :
  (∀ e, φ e → φ (f e)) → holds_in φ l h → holds_in φ l (alter f l' h).
Proof.
  intros Hf (e & He & Hφ). unfold holds_in.
  rewrite list_lookup_alter. case_decide; subst; rewrite He; cbn; eauto.
Qed.

Lemma holds_in_app φ l h h' : holds_in φ l h → holds_in φ l (h ++ h').
Proof.
  intros (e & He & Hφ). exists e. split; [|done].
  rewrite lookup_app_l; [done|]. by eapply lookup_lt_Some.
Qed.

Ltac holds_in_solve Hst :=
  repeat first
    [ assumption
    | apply holds_in_app
    | apply holds_in_alter;
      [intros ? ?;
       first [by apply (stable_bubble_text _ Hst)
             |by apply (stable_entry_text _ Hst)
             |by apply (stable_final _ Hst)]|] ].

Lemma holds_in_invariant P φ l :
  stable φ → invariant P (λ s, holds_in φ l (heap s)).
Proof.
  intros Hst. invariant_by ltac:(cbn; holds_in_solve Hst).
Qed.

(** X2: whatever events follow, no listener changes the role, the label
    or the segment id an entry was created with; the listeners only ever
    rewrite its text and its interim mark. *)
Theorem entry_identity_never_changes P evs s s' l e :
  heap s !! l = Some e → run P evs s = Some s' →
  ∃ e', heap s' !! l = Some e' ∧ msg_role e' = msg_role e ∧
        msg_segmentId e' = msg_segmentId e ∧ label_text e' = label_text e.
Proof.
  intros He Hrun.
  set (φ e' := msg_role e' = msg_role e ∧ msg_segmentId e' = msg_segmentId e ∧
               label_text e' = label_text e).
  assert (Hst : stable φ) by (by split; intros; destruct e0).
  apply (invariant_run P _ (holds_in_invariant P φ l Hst) evs s s');
    [by exists e|done].
Qed.

Lemma entry_identity_never_changes_witness :
  let m := completed_message (Some (lit "p1")) (Some (lit "Hello there")) in
  let P := parses [m] in
  let s := after P (connect_as_me ++
    [RoomEvent_TranscriptionReceived [Segment (lit "s1") (lit "hello") true] me])
    fresh_page in
  let evs := [RoomEvent_DataReceived 1 (JSON_stringify m);
              RoomEvent_Disconnected; click_clearTranscriptBtn] in
  ∃ e', heap (after P evs s) !! 0 = Some e' ∧ msg_role e' = user ∧
        msg_segmentId e' = lit "s1" ∧ label_text e' = label_you.
Proof.
  intros m P s evs.
  apply (entry_identity_never_changes P evs s (after P evs s) 0
           (Entry (lit "s1") user label_you (lit "hello") false (lit "hello")));
    by vm_compute.
Defined.

(** ** The transcript of a reachable page *)

(** Like [invariant_by], with [pre] run on the hypothesis first. *)
Ltac invariant_by_with pre solve :=
  split;
  [ intros s Hs; pre; run_js; js_cases; solve
  | intros s Hs; pre; run_js; js_cases; solve
  | intros s Hs; pre; run_js; js_cases; solve
  | intros s Hs; pre; run_js; js_cases; solve
  | intros s Hs; pre; run_js; js_cases; solve
  | intros isLocal seg s Hs; pre; run_js; js_cases; solve
  | intros now text s Hs; pre; run_js; js_cases; solve
  | intros now text s Hs; pre; run_js; js_cases; solve
  | intros k r m Hm; destruct k, r as [[]|]; simplify_eq/=;
    intros s Hs; pre; run_js; js_cases; solve
  | intros v s Hs; pre; solve
  | intros v s Hs; pre; solve ].

(** The bubble of every entry shows the text of the entry. *)
Definition in_sync (s : state) : Prop :=
  ∀ l e, heap s !! l = Some e → bubble_text e = entry_text e.

Lemma in_sync_alter (h : list entry) (l : loc) f :
  (∀ e, bubble_text e = entry_text e → bubble_text (f e) = entry_text (f e)) →
  (∀ l e, h !! l = Some e → bubble_text e = entry_text e) →
  ∀ l0 e, alter f l h !! l0 = Some e → bubble_text e = entry_text e.
Proof.
  intros Hf Hh l0 e. rewrite list_lookup_alter. case_decide; subst; [|by apply Hh].
  destruct (h !! l0) as [e'|] eqn:He'; intros [=<-]. apply Hf. by eapply Hh.
Qed.

Lemma in_sync_app (h : list entry) e' :
  bubble_text e' = entry_text e' →
  (∀ l e, h !! l = Some e → bubble_text e = entry_text e) →
  ∀ l e, (h ++ [e']) !! l = Some e → bubble_text e = entry_text e.
Proof.
  intros He' Hh l e [[_ Hl]|[_ <-]]%lookup_snoc_Some; [by eapply Hh|done].
Qed.

Lemma in_sync_invariant P : invariant P in_sync.
Proof.
  invariant_by ltac:(
    unfold in_sync in *; cbn; rewrite ?list_alter_alter_eq;
    repeat first
      [ assumption
      | apply in_sync_app; [done|]
      | apply in_sync_alter; [intros [] ?; cbn in *; congruence|] ]).
Qed.

(** The pending user entry, when there is one, is an allocated user entry. *)
Definition pending_is_user (s : state) : Prop :=
  ∀ l, lastUserSpeechEntry s = Some l →
       holds_in (λ e, msg_role e = user) l (heap s).

Lemma pending_is_user_invariant P : invariant P pending_is_user.
Proof.
  assert (Hst : stable (λ e, msg_role e = user)) by (by split; intros; destruct e).
  invariant_by ltac:(
    unfold pending_is_user in *; cbn; try assumption;
    intros ?l ?Hl; simplify_eq;
    first
      [ by (eexists; split; [by apply list_lookup_middle|])
      | match goal with
        | H : lastUserSpeechEntry _ = Some ?l |- _ =>
          apply Hs in H; holds_in_solve Hst
        end ]).
Qed.

(** The messages shown are allocated, and shown in the order they were
    created in. *)
Definition in_creation_order (s : state) : Prop :=
  StronglySorted lt (entries s) ∧ ∀ l, l ∈ entries s → l < length (heap s).

Lemma in_creation_order_invariant P : invariant P in_creation_order.
Proof.
  invariant_by_with ltac:(unfold in_creation_order, entries in Hs) ltac:(
    unfold in_creation_order, entries; cbn;
    destruct Hs as [Hsorted Hbound];
    rewrite ?length_app, ?length_alter; cbn;
    try match goal with
        | E : transcriptContainer ?s = _ |- context [transcriptContainer ?s] =>
          rewrite E
        end;
    first
      [ by split
      | by (split; [done|intros ?l ?Hl; apply Hbound in Hl; lia])
      | by (split; [constructor|intros ?l ?Hl; by apply elem_of_nil in Hl])
      | split;
        [ apply StronglySorted_app_2;
          [intros ?x1 ?x2 ?Hx1 ->%list_elem_of_singleton; by apply Hbound
          |done|repeat constructor]
        | intros ?l [?Hl| ->%list_elem_of_singleton]%elem_of_app;
          [apply Hbound in Hl|]; lia ] ]).
Qed.

(** X3: in every state the page can reach, the bubble of each entry shows the
    text of the entry, and the pending user entry, when there is one, is an
    allocated entry with the user role. *)
Theorem reachable_entries_are_coherent P s :
  reachable P s →
  (∀ l e, heap s !! l = Some e → bubble_text e = entry_text e) ∧
  (∀ l, lastUserSpeechEntry s = Some l →
        ∃ e, heap s !! l = Some e ∧ msg_role e = user).
Proof.
  intros Hs. split.
  - apply (invariant_reachable P in_sync); [|intros; by intros []|done].
    apply in_sync_invariant.
  - apply (invariant_reachable P pending_is_user); [|by intros|done].
    apply pending_is_user_invariant.
Qed.

Lemma reachable_entries_are_coherent_witness :
  let d := delta_message (Some (lit "i1")) (lit "Hel") in
  let P := parses [d] in
  let s := after P (connect_as_me ++
    [RoomEvent_TranscriptionReceived [Segment (lit "s1") (lit "hello") false] me;
     RoomEvent_DataReceived 1 (JSON_stringify d)]) fresh_page in
  (∀ l e, heap s !! l = Some e → bubble_text e = entry_text e) ∧
  (∀ l, lastUserSpeechEntry s = Some l →
        ∃ e, heap s !! l = Some e ∧ msg_role e = user).
Proof.
  intros d P s. apply (reachable_entries_are_coherent P s).
  apply reachable_after; [apply reachable_page|].
  apply is_Some_alt. by vm_compute.
Defined.

(** The messages shown in [s0] are still shown, in the same places. *)
Definition extends (s0 s : state) : Prop := entries s0 `prefix_of` entries s.

Ltac extends_solve :=
  unfold extends, entries in *; cbn;
  try match goal with
      | E : transcriptContainer ?s = _ |- context [transcriptContainer ?s] =>
        rewrite E
      end;
  first [ assumption | by apply prefix_app_r ].

Lemma extends_handleTranscription s0 segments participant :
  keeps (extends s0) (handleTranscription segments participant).
Proof.
  unfold handleTranscription.
  apply keeps_bind; [apply keeps_reads|]. intros tc.
  case_match; [apply keeps_ret|].
  apply keeps_bind; [intros s Hs; unfold extends, entries in Hs; run_js; js_cases; extends_solve|]. intros ?.
  apply keeps_bind; [apply keeps_reads|]. intros lpi.
  apply keeps_bind; [|intros ?; apply keeps_ret].
  apply keeps_for_of. intros seg _ s Hs. unfold extends, entries in Hs.
  run_js; js_cases; extends_solve.
Qed.

Lemma extends_handleDataMessage s0 P now text :
  keeps (extends s0) (handleDataMessage P now text).
Proof.
  intros s Hs. unfold extends, entries in Hs.
  run_js; js_cases; extends_solve.
Qed.

Lemma extends_sendTextMessage s0 now text :
  keeps (extends s0) (sendTextMessage now text).
Proof.
  intros s Hs. unfold extends, entries in Hs.
  run_js; js_cases; extends_solve.
Qed.

(** The events of the two sources and the typed messages. *)
Definition is_message (ev : event) : bool :=
  match ev with
  | RoomEvent_TranscriptionReceived _ _ | RoomEvent_DataReceived _ _
  | submit_text _ _ => true
  | _ => false
  end.

(** X4: the messages of a reachable page are shown in the order their
    entries were created in, none twice; and a transport batch, a protocol
    message or a typed message only ever appends to them: what was shown
    stays where it was. *)
Theorem transcript_keeps_creation_order P s ev r s' :
  reachable P s → is_message ev = true →
  dispatch P ev s = Some (r, s') →
  StronglySorted lt (entries s) ∧ StronglySorted lt (entries s') ∧
  entries s `prefix_of` entries s'.
Proof.
  intros Hs Hev Hd.
  assert (Hs' : reachable P s') by (by eapply reachable_step).
  assert (Hord : ∀ s, reachable P s → StronglySorted lt (entries s)).
  { intros s1 Hs1.
    eapply (invariant_reachable P in_creation_order);
      [apply in_creation_order_invariant| |done].
    intros lk md st [b|];
      (split; [constructor|intros l Hl; by apply elem_of_nil in Hl]). }
  split; [by apply Hord|split; [by apply Hord|]].
  assert (Hk : ∀ m : js unit, m s = (r, s') → keeps (extends s) m → extends s s').
  { intros m Hm Hkeeps.
    assert (Hrefl : extends s s) by (by unfold extends).
    specialize (Hkeeps s Hrefl).
    unfold exec in Hkeeps. by rewrite Hm in Hkeeps. }
  destruct ev; try done; cbn in Hd.
  - injection Hd as Hd. eapply Hk; [done|].
    case_match; [apply extends_sendTextMessage|apply keeps_ret].
  - destruct (room s); simplify_eq.
    eapply Hk; [done|apply extends_handleTranscription].
  - destruct (room s); simplify_eq.
    eapply Hk; [done|apply extends_handleDataMessage].
Qed.

Lemma transcript_keeps_creation_order_witness :
  let P := parses [] in
  let s := after P (connect_as_me ++
    [RoomEvent_TranscriptionReceived [Segment (lit "s1") (lit "hello") false] me;
     submit_text 5 (lit "hi")]) fresh_page in
  let ev := RoomEvent_TranscriptionReceived
              [Segment (lit "a1") (lit "Hi") false;
               Segment (lit "s1") (lit "hello!") true] agent in
  let s' := after P [ev] s in
  StronglySorted lt (entries s) ∧ StronglySorted lt (entries s') ∧
  entries s `prefix_of` entries s'.
Proof.
  intros P s ev s'.
  apply (transcript_keeps_creation_order P s ev (Normal tt) s').
  - apply reachable_after; [apply reachable_page|].
    apply is_Some_alt. by vm_compute.
  - reflexivity.
  - by vm_compute.
Defined.

(** ** What one protocol message can do *)

Ltac data_message_solve :=
  cbn; rewrite ?length_app, ?length_alter; cbn;
  split; [done|]; split; [lia|]; split;
  [ intros ?k ?l ?Hk; rewrite ?lookup_insert_ne by congruence; done
  | split;
    [ intros ?k ?k' ?Hk ?Hk'; cbn;
      rewrite ?lookup_insert; repeat case_decide; subst;
      rewrite ?Hk, ?Hk'; try done; by intros [] []
    | first
        [ match goal with
          | |- context [alter _ ?l _] =>
            exists l; intros ?l' ?Hl'; by rewrite !list_lookup_alter_ne
          end
        | match goal with
          | |- context [heap ?s ++ _] =>
            exists (length (heap s)); intros ?l' ?Hl';
            destruct (decide (l' < length (heap s)));
            [by rewrite lookup_app_l
            |rewrite !lookup_ge_None_2; [done|lia|];
             rewrite length_app; cbn; lia]
          end
        | by exists 0 ] ] ].

(** X5: whatever the payload, [handleDataMessage] returns without an
    exception.  It allocates at most one entry and files at most one new
    key; the keys already filed keep their entries; and it changes at most
    one entry. *)
Theorem data_message_touches_one_entry P now text s :
  let s' := exec (handleDataMessage P now text) s in
  (handleDataMessage P now text s).1 = Normal tt ∧
  length (heap s) ≤ length (heap s') ≤ S (length (heap s)) ∧
  (∀ k l, segmentElements s !! k = Some l → segmentElements s' !! k = Some l) ∧
  (∀ k k', segmentElements s !! k = None → segmentElements s !! k' = None →
           is_Some (segmentElements s' !! k) →
           is_Some (segmentElements s' !! k') → k = k') ∧
  ∃ l, ∀ l', l' ≠ l → heap s' !! l' = heap s !! l'.
Proof.
  run_js. js_cases; data_message_solve.
Qed.

(** ** What one transport batch does *)

#[local] Set Warnings "-clear-no-such-hyp".

(** The ids of the segments of a batch. *)
Definition batch_ids (segments : list segment) : gset jsstr :=
  list_to_set (seg_id <$> segments).

Lemma batch_ids_nil (D : gset jsstr) : size (batch_ids [] ∖ D) = 0.
Proof. apply size_empty_iff. unfold batch_ids. set_solver. Qed.

Lemma batch_ids_known (x : jsstr) (B D : gset jsstr) :
  x ∈ D → ({[x]} ∪ B) ∖ D = B ∖ D.
Proof.
  intros Hx. apply set_eq. intros y.
  rewrite !elem_of_difference, elem_of_union, elem_of_singleton.
  destruct (decide (y = x)); naive_solver.
Qed.

Lemma batch_ids_new (x : jsstr) (B D : gset jsstr) :
  x ∉ D → size (({[x]} ∪ B) ∖ D) = S (size (B ∖ ({[x]} ∪ D))).
Proof.
  intros Hx.
  replace (({[x]} ∪ B) ∖ D) with ({[x]} ∪ (B ∖ ({[x]} ∪ D))).
  - rewrite size_union, size_singleton; [done|].
    intros y. rewrite elem_of_singleton, elem_of_difference, elem_of_union,
      elem_of_singleton. naive_solver.
  - apply set_eq. intros y.
    rewrite !elem_of_difference, !elem_of_union, elem_of_difference,
      elem_of_union, !elem_of_singleton.
    destruct (decide (y = x)); naive_solver.
Qed.

Lemma handleSegment_known isLocal seg s l :
  segmentElements s !! seg_id seg = Some l →
  ∃ h, handleSegment isLocal seg s = (Normal tt, set_heap h s) ∧
       length h = length (heap s).
Proof.
  intros Hl. run_js. rewrite Hl. cbn.
  destruct (seg_final seg); cbn; eexists; (split; [done|]);
    by rewrite !length_alter.
Qed.

Lemma handleSegment_new isLocal seg s c :
  transcriptContainer s = Some c →
  segmentElements s !! seg_id seg = None →
  ∃ s', handleSegment isLocal seg s = (Normal tt, s') ∧
        is_Some (transcriptContainer s') ∧
        segmentElements s' = <[seg_id seg := length (heap s)]> (segmentElements s) ∧
        length (heap s') = S (length (heap s)).
Proof.
  intros Hc Hl. run_js. rewrite Hl. cbn. rewrite Hc. cbn.
  destruct isLocal; cbn; eexists; (split; [done|]); cbn;
    rewrite length_app; cbn; (split; [by eexists|split; [done|lia]]).
Qed.

Lemma for_of_handleSegment isLocal segments :
  ∀ s, is_Some (transcriptContainer s) →
  ∃ s', for_of segments (handleSegment isLocal) s = (Normal tt, s') ∧
        is_Some (transcriptContainer s') ∧
        dom (segmentElements s') =
          dom (segmentElements s) ∪ batch_ids segments ∧
        (∀ k l, segmentElements s !! k = Some l →
                segmentElements s' !! k = Some l) ∧
        length (heap s') =
          length (heap s) + size (batch_ids segments ∖ dom (segmentElements s)).
Proof.
  induction segments as [|seg segments IH]; intros s [c Hc].
  - exists s. rewrite batch_ids_nil. cbn.
    split; [done|]. split; [by eexists|]. split; [|split; [done|lia]].
    unfold batch_ids. set_solver.
  - cbn [for_of]. unfold mbind, js_bind.
    destruct (segmentElements s !! seg_id seg) as [l|] eqn:Hl.
    + destruct (handleSegment_known isLocal seg s l Hl) as (h & -> & Hlen).
      destruct (IH (set_heap h s)) as (s' & -> & Hc' & Hdom & Hkeep & Hheap);
        [by eexists|].
      exists s'. cbn in Hdom, Hkeep, Hheap.
      split; [done|]. split; [done|]. split; [|split; [done|]].
      * rewrite Hdom. unfold batch_ids. cbn.
        apply (elem_of_dom_2 (D:=gset jsstr)) in Hl. set_solver.
      * rewrite Hheap, Hlen. unfold batch_ids. cbn.
        apply (elem_of_dom_2 (D:=gset jsstr)) in Hl.
        by rewrite batch_ids_known.
    + destruct (handleSegment_new isLocal seg s c Hc Hl)
        as (s1 & -> & Hc1 & Hmap1 & Hlen1).
      destruct (IH s1 Hc1) as (s' & -> & Hc' & Hdom & Hkeep & Hheap).
      exists s'. split; [done|]. split; [done|]. split; [|split].
      * rewrite Hdom, Hmap1, dom_insert_L. unfold batch_ids. cbn. set_solver.
      * intros k l Hk. apply Hkeep. rewrite Hmap1.
        rewrite lookup_insert_ne; [done|]. intros Heq. rewrite <-Heq in Hk.
        congruence.
      * rewrite Hheap, Hlen1, Hmap1, dom_insert_L. unfold batch_ids. cbn.
        apply (not_elem_of_dom_2 (D:=gset jsstr)) in Hl.
        rewrite batch_ids_new by done. lia.
Qed.

(** X6: on a page with the transcript element, a transport batch returns
    without an exception; afterwards exactly the ids of its segments have
    been added to the keys, each key that was filed keeps its entry, and one
    entry has been allocated for each id that was new, however often the
    batch repeats it. *)
Theorem transcription_batch_files_each_id_once segments participant s c :
  transcriptContainer s = Some c →
  let s' := exec (handleTranscription segments participant) s in
  (handleTranscription segments participant s).1 = Normal tt ∧
  dom (segmentElements s') = dom (segmentElements s) ∪ batch_ids segments ∧
  (∀ k l, segmentElements s !! k = Some l → segmentElements s' !! k = Some l) ∧
  length (heap s') =
    length (heap s) + size (batch_ids segments ∖ dom (segmentElements s)).
Proof.
  intros Hc. cbn zeta. unfold exec, handleTranscription, mbind, js_bind, reads.
  rewrite Hc. cbn. case_bool_decide as Hnil; cbn.
  { subst. rewrite batch_ids_nil.
    split; [done|]. split; [|split; [done|lia]].
    unfold batch_ids. set_solver. }
  rewrite hideTranscriptEmpty_eq, Hc.
  set (s1 := set_transcriptContainer _ s).
  destruct (for_of_handleSegment
              (is_local participant (localParticipantIdentity s1)) segments s1)
    as (s' & -> & _ & Hdom & Hkeep & Hheap); [by eexists|].
  cbn in *. split; [done|]. split; [done|]. split; [done|]. done.
Qed.

Lemma transcription_batch_files_each_id_once_witness :
  let s := after (parses []) (connect_as_me ++
    [RoomEvent_TranscriptionReceived [Segment (lit "s1") (lit "hello") false] me])
    fresh_page in
  let segments := [Segment (lit "a1") (lit "Hi") false;
                   Segment (lit "s1") (lit "hello!") true;
                   Segment (lit "a1") (lit "Hi there") true] in
  let s' := exec (handleTranscription segments agent) s in
  (handleTranscription segments agent s).1 = Normal tt ∧
  dom (segmentElements s') = dom (segmentElements s) ∪ batch_ids segments ∧
  (∀ k l, segmentElements s !! k = Some l → segmentElements s' !! k = Some l) ∧
  length (heap s') =
    length (heap s) + size (batch_ids segments ∖ dom (segmentElements s)).
Proof.
  intros s segments.
  apply (transcription_batch_files_each_id_once segments agent s
           (Container [0] false)).
  by vm_compute.
Defined.

(** ** The start sequence *)






(** X8: a promise of the start sequence that is rejected, or a token
    response that is not ok, ends the sequence: the exception is caught,
    the page shows "error", and nothing of the sequence stays suspended. *)
Theorem start_failure_is_reported P s i k :
  is_Some (statusText s) → suspended s !! i = Some k → k ≠ await_disconnect →
  (∃ s', dispatch P (settle i rejected) s = Some (Normal tt, s') ∧
         statusText s' = Some error ∧
         suspended s' = delete i (suspended s)) ∧
  (∀ n, k = await_fetch n →
     ∃ s', dispatch P (settle i (fulfilled (response false))) s =
             Some (Normal tt, s') ∧
           statusText s' = Some error ∧
           suspended s' = delete i (suspended s)).
Proof.
  intros [st Hst] Hk Hne. split.
  - cbn. rewrite Hk. cbn.
    destruct k; try done; cbn; run_js; rewrite Hst; cbn;
      eexists; (split; [done|]); by cbn.
  - intros n ->. cbn. rewrite Hk. cbn. run_js. rewrite Hst. cbn.
    eexists. split; [done|]. by cbn.
Qed.

Lemma start_failure_is_reported_witness :
  let P := parses [] in
  let s := after P (take 3 connect_as_me) fresh_page in
  (∃ s', dispatch P (settle 0 rejected) s = Some (Normal tt, s') ∧
         statusText s' = Some error ∧
         suspended s' = delete 0 (suspended s)) ∧
  (∀ n, await_fetch 1 = await_fetch n →
     ∃ s', dispatch P (settle 0 (fulfilled (response false))) s =
             Some (Normal tt, s') ∧
           statusText s' = Some error ∧
           suspended s' = delete 0 (suspended s)).
Proof.
  intros P s.
  apply (start_failure_is_reported P s 0 (await_fetch 1)).
  - apply is_Some_alt. by vm_compute.
  - by vm_compute.
  - done.
Defined.

(** X9: without [getUserMedia] the start sequence stops when the
    credentials arrive: the transcript has been emptied, the exception of
    [ensureMicSupport] is caught, the page shows "error", and no room is
    created. *)
Theorem start_without_microphone_is_an_error P s i h :
  mediaDevices s = false → is_Some (statusText s) →
  suspended s !! i = Some await_ensurePublicKey →
  ∃ s', dispatch P (settle i (fulfilled (authHeader (Some h)))) s =
          Some (Normal tt, s') ∧
        statusText s' = Some error ∧
        suspended s' = delete i (suspended s) ∧
        room s' = room s ∧
        entries s' = [].
Proof.
  intros Hmd [st Hst] Hk.
  destruct s as [? ? ? ? tc ? ? ? ? ? ? ?]; cbn in Hmd, Hst, Hk; subst.
  cbn. rewrite Hk. cbn. run_js.
  destruct tc; cbn; eexists; (split; [done|]); done.
Qed.

Lemma start_without_microphone_is_an_error_witness :
  let P := parses [] in
  let s := after P [click_startBtn] (page true false true (Some true)) in
  ∃ s', dispatch P (settle 0 (fulfilled (authHeader (Some (lit "Bearer k"))))) s =
          Some (Normal tt, s') ∧
        statusText s' = Some error ∧
        suspended s' = delete 0 (suspended s) ∧
        room s' = room s ∧
        entries s' = [].
Proof.
  intros P s.
  apply (start_without_microphone_is_an_error P s 0 (lit "Bearer k")).
  - by vm_compute.
  - apply is_Some_alt. by vm_compute.
  - by vm_compute.
Defined.

(** ** A page without the SDK *)

(** What a page without the SDK looks like: no session was started. *)
Definition inert (st : bool) (s : state) : Prop :=
  LiveKitClient s = false ∧ Room s = false ∧ room s = None ∧
  suspended s = [] ∧ heap s = [] ∧ published s = [] ∧
  localParticipantIdentity s = None ∧
  statusText s = if st then Some disconnected else None.

Lemma inert_dispatch P st ev s r s' :
  inert st s → dispatch P ev s = Some (r, s') → inert st s'.
Proof.
  intros (Hlk & HRoom & Hroom & Hsus & Hheap & Hpub & Hlpi & Hst) Hev.
  destruct s as [? ? ? ? tc ? ? ? ? ? ? ?]; cbn in *; subst.
  destruct ev; cbn in Hev; try done; unfold inert.
  - run_js. by simplify_eq.
  - run_js. destruct st; by simplify_eq.
  - run_js. destruct tc; by simplify_eq.
  - destruct (truthy (trim value0)) eqn:Hvalue;
      [unfold sendTextMessage, mbind, js_bind, reads, mret, js_ret in Hev;
       rewrite Hvalue in Hev; cbn in Hev|unfold mret, js_ret in Hev];
      by simplify_eq.
Qed.

(** X10: on a page where the LiveKit SDK did not load, no click and no
    typed message starts anything: no invocation is ever suspended, no room
    is created, nothing is published, no entry is made, and the status
    stays the one the page was loaded with. *)
Theorem page_without_LiveKit_is_inert P md st tc evs s :
  run P evs (page false md st tc) = Some s →
  statusText s = statusText (page false md st tc) ∧
  room s = None ∧ suspended s = [] ∧ published s = [] ∧ heap s = [].
Proof.
  intros Hrun.
  assert (Hs : inert st s).
  { assert (Hgen : ∀ s0, inert st s0 → run P evs s0 = Some s → inert st s).
    { clear Hrun. induction evs as [|ev evs IH]; intros s0 Hs0; cbn.
      - by intros [= <-].
      - destruct (dispatch P ev s0) as [[r s2]|] eqn:Hev; [|done].
        apply IH. by eapply inert_dispatch. }
    apply (Hgen (page false md st tc)); [|done].
    unfold inert. by destruct st. }
  destruct Hs as (_ & _ & ? & ? & ? & ? & _ & ?). by destruct st.
Qed.

Lemma page_without_LiveKit_is_inert_witness :
  let P := parses [] in
  let evs := [click_startBtn; submit_text 1 (lit "hi"); click_stopBtn;
              click_clearTranscriptBtn; click_startBtn] in
  let s := after P evs (page false true true (Some true)) in
  statusText s = Some disconnected ∧
  room s = None ∧ suspended s = [] ∧ published s = [] ∧ heap s = [].
Proof.
  intros P evs s.
  apply (page_without_LiveKit_is_inert P true true (Some true) evs s).
  by vm_compute.
Defined.
